(** * Life-insurance policy registry

    A shallow embedding of the canister in [src/index.ts]: six methods over
    one [StableBTreeMap] keyed by policy id.  Records are JavaScript objects,
    so they are finite maps from field names to runtime values; the object
    spread [{...a, ...b}] is the union of the two maps in which [b] wins.

    The host supplies three things to a call: the caller ([ic.caller()]),
    the clock ([ic.time()]) and a fresh text ([uuidv4()]).  They are inputs
    of the functions below. *)

From Stdlib Require Import ZArith Floats.PrimFloat.
From stdpp Require Import gmap strings list fin_maps.

Open Scope Z_scope.

(** ** Runtime values *)

(** [nat64] is a Candid natural, a JavaScript bigint. *)
Abbreviation nat64 := Z (only parsing).

(** A principal is shown by its text; the value itself is an object. *)
Abbreviation Principal := string (only parsing).

(** The values a field of a policy or of a payload can hold. [VOpt] is
    azle's [Opt<nat64>]: the object [{None: null}] or [{Some: n}]. *)
Inductive value : Type :=
  | VUndefined
  | VNull
  | VBool (b : bool)
  | VNumber (x : float)
  | VNat64 (n : nat64)
  | VString (s : string)
  | VPrincipal (p : Principal)
  | VOpt (o : option nat64).

(** JavaScript's [typeof]. *)
Definition typeof (v : value) : string :=
  match v with
  | VUndefined => "undefined"
  | VNull => "object"
  | VBool _ => "boolean"
  | VNumber _ => "number"
  | VNat64 _ => "bigint"
  | VString _ => "string"
  | VPrincipal _ => "object"
  | VOpt _ => "object"
  end.

(** JavaScript's truthiness: what [!v] and [if (v)] look at. *)
Definition truthy (v : value) : bool :=
  match v with
  | VUndefined | VNull => false
  | VBool b => b
  | VNumber x => PrimFloat.eqb x x && negb (PrimFloat.eqb x 0)
  | VNat64 n => negb (n =? 0)
  | VString s => negb (String.eqb s "")
  | VPrincipal _ | VOpt _ => true
  end.

(** Whether a value is an object (as opposed to a primitive). *)
Definition is_object (v : value) : bool :=
  match v with
  | VPrincipal _ | VOpt _ => true
  | _ => false
  end.

(** A record (policy or payload) is an object with named fields. *)
Abbreviation obj := (gmap string value) (only parsing).
Abbreviation LifeInsurancePolicy := (gmap string value) (only parsing).
Abbreviation LifeInsurancePolicyPayload := (gmap string value) (only parsing).

(** [o.f]: reading a field that is not there gives [undefined]. *)
Definition field (o : obj) (f : string) : value :=
  default VUndefined (o !! f).

(** [f in o]. *)
Definition has_field (f : string) (o : obj) : bool :=
  match o !! f with
  | Some _ => true
  | None => false
  end.

(** [{...a, ...b}]: the fields of both, those of [b] winning. *)
Definition spread (a b : obj) : obj := b ∪ a.

(** A record is an object, never null: [!payload] is false and
    [typeof payload] is ["object"]. *)
Definition truthy_record (o : obj) : bool := true.
Definition typeof_record (o : obj) : string := "object".

(** ** Results *)

Inductive Result (A : Type) : Type :=
  | Ok (a : A)
  | Err (msg : string).
Arguments Ok {A} a.
Arguments Err {A} msg.

Definition is_Ok {A} (r : Result A) : bool :=
  match r with
  | Ok _ => true
  | Err _ => false
  end.

(** The texts of the failures, as the templates of the source build them. *)
Definition invalid_id_msg : string := "Invalid ID format.".
Definition invalid_caller_msg : string := "Invalid current user ID.".
Definition invalid_create_payload_msg : string :=
  "Invalid payload for creating an insurance policy.".
Definition invalid_update_payload_msg : string :=
  "Invalid payload for updating an insurance policy.".
Definition missing_field_msg (f : string) : string :=
  "Missing required field: " +:+ f +:+ ".".
Definition not_found_msg (id : string) : string :=
  "Insurance Policy with ID=" +:+ id +:+ " not found.".
Definition already_filed_msg (id : string) : string :=
  "Claim for Insurance Policy with ID=" +:+ id +:+ " has already been filed.".

(** The three kinds of failure of the registry, read off the message. *)
Inductive ErrorKind : Type := Validation | NotFound | Conflict.

Definition failure_of (id : string) (k : ErrorKind) (msg : string) : Prop :=
  match k with
  | Validation =>
      msg = invalid_id_msg ∨ msg = invalid_caller_msg ∨
      msg = invalid_create_payload_msg ∨ msg = invalid_update_payload_msg ∨
      ∃ f, msg = missing_field_msg f
  | NotFound => msg = not_found_msg id
  | Conflict => msg = already_filed_msg id
  end.

(** ** The store *)

(** [insurancePolicyStorage], a [StableBTreeMap<string, LifeInsurancePolicy>]. *)
Abbreviation Storage := (gmap string (gmap string value)) (only parsing).

(** [insert(key, v)]. The key is text; a call with any other value as key
    is outside the map's type and is a fault of the call ([None]).  The map
    keeps the record it is given and gives it back as it is. *)
Definition storage_insert (key : value) (v : obj) (s : Storage) : option Storage :=
  match key with
  | VString k => Some (<[k := v]> s)
  | _ => None
  end.

(** [values()]: every stored record. *)
Definition storage_values (s : Storage) : list obj := (map_to_list s).*2.

(** What the host gives to one call. *)
Record IC : Type := mkIC {
  caller : Principal;
  time : nat64;
}.

(** ** The methods of [src/index.ts] *)

Definition requiredFields : list string :=
  ["policyHolder"; "coverageAmount"; "premiumAmount";
   "policyStartDate"; "policyEndDate"; "isClaimed"].

(** The loop [for (const field of requiredFields) if (!(field in payload))
    return ...]: the first required field the payload lacks. *)
Fixpoint missing_field (fields : list string) (payload : obj) : option string :=
  match fields with
  | [] => None
  | f :: rest =>
      if negb (has_field f payload) then Some f else missing_field rest payload
  end.

(** [!id || typeof id !== "string"], for an [id] of the declared type. *)
Definition invalid_id (id : string) : bool :=
  negb (truthy (VString id)) || negb (String.eqb (typeof (VString id)) "string").

(** [!payload || typeof payload !== "object"]. *)
Definition invalid_payload (payload : obj) : bool :=
  negb (truthy_record payload)
  || negb (String.eqb (typeof_record payload) "object").

(** An update method gives back its result and the store it leaves; [None]
    is a fault of the call (see [storage_insert]). *)
Definition createInsurancePolicy (ic : IC) (uuidv4 : string)
    (payload : LifeInsurancePolicyPayload) (s : Storage)
    : option (Result LifeInsurancePolicy * Storage) :=
  if invalid_payload payload then
    Some (Err invalid_create_payload_msg, s)
  else
    match missing_field requiredFields payload with
    | Some f => Some (Err (missing_field_msg f), s)
    | None =>
        let insurancePolicy :=
          spread (<["id" := VString uuidv4]>
                    (<["createdAt" := VNat64 (time ic)]>
                       (<["updatedAt" := VOpt None]> ∅)))
                 payload in
        s' ← storage_insert (field insurancePolicy "id") insurancePolicy s;
        Some (Ok insurancePolicy, s')
    end.

(** A query reads the store and leaves it alone. *)
Definition getInsurancePolicy (id : string) (s : Storage)
    : Result LifeInsurancePolicy :=
  if invalid_id id then Err invalid_id_msg
  else
    match s !! id with
    | Some policy => Ok policy
    | None => Err (not_found_msg id)
    end.

Definition updateInsurancePolicy (ic : IC) (id : string)
    (payload : LifeInsurancePolicyPayload) (s : Storage)
    : option (Result LifeInsurancePolicy * Storage) :=
  if invalid_id id then Some (Err invalid_id_msg, s)
  else if invalid_payload payload then
    Some (Err invalid_update_payload_msg, s)
  else
    match missing_field requiredFields payload with
    | Some f => Some (Err (missing_field_msg f), s)
    | None =>
        match s !! id with
        | Some existingPolicy =>
            let updatedPolicy :=
              <["updatedAt" := VOpt (Some (time ic))]>
                (spread existingPolicy payload) in
            s' ← storage_insert (field updatedPolicy "id") updatedPolicy s;
            Some (Ok updatedPolicy, s')
        | None => Some (Err (not_found_msg id), s)
        end
    end.

Definition deleteInsurancePolicy (id : string) (s : Storage)
    : option (Result LifeInsurancePolicy * Storage) :=
  if invalid_id id then Some (Err invalid_id_msg, s)
  else
    match s !! id with
    | Some existingPolicy => Some (Ok existingPolicy, delete id s)
    | None => Some (Err (not_found_msg id), s)
    end.

Definition fileClaim (ic : IC) (id : string) (s : Storage)
    : option (Result LifeInsurancePolicy * Storage) :=
  if invalid_id id then Some (Err invalid_id_msg, s)
  else
    match s !! id with
    | Some policy =>
        if truthy (field policy "isClaimed") then
          Some (Err (already_filed_msg id), s)
        else
          let updatedPolicy :=
            <["updatedAt" := VOpt (Some (time ic))]>
              (<["isClaimed" := VBool true]> policy) in
          s' ← storage_insert (field updatedPolicy "id") updatedPolicy s;
          Some (Ok updatedPolicy, s')
    | None => Some (Err (not_found_msg id), s)
    end.

Section Listing.

(** [a === b] on two objects asks whether they are one and the same
    object.  Which objects the host hands out (the caller it builds for
    a call, the records it reads back from stable memory) is not in the
    source, so the answer is a parameter. *)
Variable identical : value → value → bool.

(** JavaScript's [===]. *)
Definition strict_eq (a b : value) : bool :=
  match a, b with
  | VUndefined, VUndefined => true
  | VNull, VNull => true
  | VBool x, VBool y => Bool.eqb x y
  | VNumber x, VNumber y => PrimFloat.eqb x y
  | VNat64 x, VNat64 y => x =? y
  | VString x, VString y => String.eqb x y
  | _, _ => is_object a && is_object b && identical a b
  end.

Definition getAllInsurancePolicies (ic : IC) (s : Storage)
    : Result (list LifeInsurancePolicy) :=
  let currentUserId := VPrincipal (caller ic) in
  if negb (truthy currentUserId)
     || negb (String.eqb (typeof currentUserId) "string")
  then Err invalid_caller_msg
  else
    let userInsurancePolicies :=
      filter (λ policy,
                strict_eq (field policy "policyHolder") currentUserId = true)
             (storage_values s) in
    Ok userInsurancePolicies.

End Listing.

(** ** The methods of the second copy of the canister

    The repository holds a second copy of the same canister that has none of
    the guards on [id], [payload] and caller: each method goes straight to
    the store. *)
Module Unguarded.

Definition createInsurancePolicy (ic : IC) (uuidv4 : string)
    (payload : LifeInsurancePolicyPayload) (s : Storage)
    : option (Result LifeInsurancePolicy * Storage) :=
  let insurancePolicy :=
    spread (<["id" := VString uuidv4]>
              (<["createdAt" := VNat64 (time ic)]>
                 (<["updatedAt" := VOpt None]> ∅)))
           payload in
  s' ← storage_insert (field insurancePolicy "id") insurancePolicy s;
  Some (Ok insurancePolicy, s').

Definition getInsurancePolicy (id : string) (s : Storage)
    : Result LifeInsurancePolicy :=
  match s !! id with
  | Some policy => Ok policy
  | None => Err (not_found_msg id)
  end.

Definition getAllInsurancePolicies (identical : value → value → bool)
    (ic : IC) (s : Storage) : Result (list LifeInsurancePolicy) :=
  let currentUserId := VPrincipal (caller ic) in
  let userInsurancePolicies :=
    filter (λ policy,
              strict_eq identical (field policy "policyHolder") currentUserId
              = true)
           (storage_values s) in
  Ok userInsurancePolicies.

Definition updateInsurancePolicy (ic : IC) (id : string)
    (payload : LifeInsurancePolicyPayload) (s : Storage)
    : option (Result LifeInsurancePolicy * Storage) :=
  match s !! id with
  | Some existingPolicy =>
      let updatedPolicy :=
        <["updatedAt" := VOpt (Some (time ic))]>
          (spread existingPolicy payload) in
      s' ← storage_insert (field updatedPolicy "id") updatedPolicy s;
      Some (Ok updatedPolicy, s')
  | None => Some (Err (not_found_msg id), s)
  end.

Definition deleteInsurancePolicy (id : string) (s : Storage)
    : option (Result LifeInsurancePolicy * Storage) :=
  match s !! id with
  | Some existingPolicy => Some (Ok existingPolicy, delete id s)
  | None => Some (Err (not_found_msg id), s)
  end.

Definition fileClaim (ic : IC) (id : string) (s : Storage)
    : option (Result LifeInsurancePolicy * Storage) :=
  match s !! id with
  | Some policy =>
      if negb (truthy (field policy "isClaimed")) then
        let updatedPolicy :=
          <["updatedAt" := VOpt (Some (time ic))]>
            (<["isClaimed" := VBool true]> policy) in
        s' ← storage_insert (field updatedPolicy "id") updatedPolicy s;
        Some (Ok updatedPolicy, s')
      else Some (Err (already_filed_msg id), s)
  | None => Some (Err (not_found_msg id), s)
  end.

End Unguarded.

(** ** Calls and sequences of calls *)

(** One call of one of the six methods, with its arguments. *)
Inductive Call : Type :=
  | CreateInsurancePolicy (payload : LifeInsurancePolicyPayload)
  | GetInsurancePolicy (id : string)
  | GetAllInsurancePolicies
  | UpdateInsurancePolicy (id : string) (payload : LifeInsurancePolicyPayload)
  | DeleteInsurancePolicy (id : string)
  | FileClaim (id : string).

(** What a call gives back: one policy or a list of them. *)
Inductive Reply : Type :=
  | Policy (r : Result LifeInsurancePolicy)
  | Policies (r : Result (list LifeInsurancePolicy)).

Definition failed (r : Reply) : bool :=
  match r with
  | Policy r => negb (is_Ok r)
  | Policies r => negb (is_Ok r)
  end.

(** The host's side of one call: identity and clock, and the text the id
    generator would hand out. *)
Record Host : Type := mkHost {
  host_ic : IC;
  host_uuid : string;
}.


(** The payload of a call, when it has one. *)
Definition payload_of (c : Call) : option LifeInsurancePolicyPayload :=
  match c with
  | CreateInsurancePolicy payload => Some payload
  | UpdateInsurancePolicy _ payload => Some payload
  | _ => None
  end.

(** A payload of the declared type has no field beyond the six of
    [LifeInsurancePolicyPayload]; a full one has all six. *)
Definition payload_typed (payload : obj) : Prop :=
  dom payload ⊆ list_to_set requiredFields.

Definition payload_full (payload : obj) : Prop :=
  list_to_set requiredFields ⊆ dom payload.

Definition typed_call (c : Call) : Prop :=
  match payload_of c with
  | Some payload => payload_typed payload
  | None => True
  end.

(** [if (policy.isClaimed)]. *)
Definition isClaimed (policy : obj) : bool := truthy (field policy "isClaimed").

(** The calls that cannot take the claim flag of the policy [id] back: all
    but an [updateInsurancePolicy] of [id] itself whose payload has the six
    fields and an [isClaimed] that is not true. *)
Definition spares_claim (id : string) (c : Call) : Prop :=
  match c with
  | UpdateInsurancePolicy k payload =>
      k ≠ id ∨ isClaimed payload = true
      ∨ is_Some (missing_field requiredFields payload)
  | _ => True
  end.

Section Registry.

Variable identical : value → value → bool.

Definition invoke (h : Host) (c : Call) (s : Storage)
    : option (Reply * Storage) :=
  match c with
  | CreateInsurancePolicy payload =>
      '(r, s') ← createInsurancePolicy (host_ic h) (host_uuid h) payload s;
      Some (Policy r, s')
  | GetInsurancePolicy id => Some (Policy (getInsurancePolicy id s), s)
  | GetAllInsurancePolicies =>
      Some (Policies (getAllInsurancePolicies identical (host_ic h) s), s)
  | UpdateInsurancePolicy id payload =>
      '(r, s') ← updateInsurancePolicy (host_ic h) id payload s;
      Some (Policy r, s')
  | DeleteInsurancePolicy id =>
      '(r, s') ← deleteInsurancePolicy id s;
      Some (Policy r, s')
  | FileClaim id =>
      '(r, s') ← fileClaim (host_ic h) id s;
      Some (Policy r, s')
  end.

(** A sequence of calls, each with the host's side of it, run in order. *)
Fixpoint run (tr : list (Host * Call)) (s : Storage) : option Storage :=
  match tr with
  | [] => Some s
  | (h, c) :: rest =>
      '(_, s') ← invoke h c s;
      run rest s'
  end.

(** The host keeps its side of the contract along a sequence of calls
    that starts when the clock shows [last]: payloads have the declared
    type, generated ids are not empty, the clock never runs backwards. *)
Fixpoint hosted (last : nat64) (tr : list (Host * Call)) : Prop :=
  match tr with
  | [] => True
  | (h, c) :: rest =>
      typed_call c ∧ host_uuid h ≠ "" ∧ last ≤ time (host_ic h)
      ∧ hosted (time (host_ic h)) rest
  end.

Fixpoint clock_after (last : nat64) (tr : list (Host * Call)) : nat64 :=
  match tr with
  | [] => last
  | (h, _) :: rest => clock_after (time (host_ic h)) rest
  end.

(** The stores the registry gets to from the empty one, with the last
    reading of the clock. *)
Definition reachable (last : nat64) (s : Storage) : Prop :=
  ∃ tr, hosted 0 tr ∧ run tr ∅ = Some s ∧ clock_after 0 tr = last.

(** Every record sits under its own id. *)
Definition keyed (s : Storage) : Prop :=
  ∀ k policy, s !! k = Some policy → policy !! "id" = Some (VString k).

(** What holds of a stored record when the clock has last shown [last]. *)
Definition policy_ok (last : nat64) (k : string) (policy : obj) : Prop :=
  k ≠ "" ∧ policy !! "id" = Some (VString k)
  ∧ (∃ c, policy !! "createdAt" = Some (VNat64 c) ∧ c ≤ last)
  ∧ (∃ u, policy !! "updatedAt" = Some (VOpt u) ∧ ∀ t, u = Some t → t ≤ last).

Definition store_ok (last : nat64) (s : Storage) : Prop :=
  ∀ k policy, s !! k = Some policy → policy_ok last k policy.

End Registry.

(** ** A small registry to run things on *)

Definition sample_payload : LifeInsurancePolicyPayload :=
  <["policyHolder" := VPrincipal "2vxsx-fae"]>
    (<["coverageAmount" := VNumber 100000%float]>
       (<["premiumAmount" := VNumber 500%float]>
          (<["policyStartDate" := VNat64 1000]>
             (<["policyEndDate" := VNat64 2000]>
                (<["isClaimed" := VBool false]> ∅))))).

(** The same payload with the claim flag set. *)
Definition claimed_payload : LifeInsurancePolicyPayload :=
  <["isClaimed" := VBool true]> sample_payload.

(** A payload that lacks [premiumAmount] and [isClaimed]. *)
Definition partial_payload : LifeInsurancePolicyPayload :=
  delete "isClaimed" (delete "premiumAmount" sample_payload).

Definition sample_host (who : Principal) (now : nat64) (uuid : string) : Host :=
  mkHost (mkIC who now) uuid.

(** The record that [createInsurancePolicy] builds from a payload. *)
Definition created (now : nat64) (uuid : string)
    (payload : LifeInsurancePolicyPayload) : LifeInsurancePolicy :=
  spread (<["id" := VString uuid]>
            (<["createdAt" := VNat64 now]>
               (<["updatedAt" := VOpt None]> ∅))) payload.

(** One unclaimed policy, created at time 10. *)
Definition sample_store : Storage :=
  <["p-1" := created 10 "p-1" sample_payload]> ∅.

(** One claimed policy, created at time 10. *)
Definition claimed_store : Storage :=
  <["p-1" := created 10 "p-1" claimed_payload]> ∅.

(** No object is ever the same object as another. *)
Definition never_identical (a b : value) : bool := false.

(** ** The random source of [src/index.ts] *)

(** Storing a number in a [Uint8Array] keeps it modulo 256. *)
Definition to_uint8 (n : Z) : Z := n mod 256.

(** The loop [for (let i = 0; i < array.length; i++) array[i] = ...], from
    index [i] with [todo] turns left.  [draw i] is the value of
    [Math.floor(Math.random() * 256)] at turn [i]. *)
Fixpoint fill_random (draw : nat → Z) (i todo : nat) (array : list Z) : list Z :=
  match todo with
  | O => array
  | S todo' => fill_random draw (S i) todo' (<[i := to_uint8 (draw i)]> array)
  end.

(** [globalThis.crypto.getRandomValues]: it takes no argument, so what a
    caller passes is not looked at. *)
Definition getRandomValues (draw : nat → Z) : list Z :=
  let array := replicate 32 0 in
  fill_random draw 0 (length array) array.

(** The ids the generator hands out to the [createInsurancePolicy] calls of
    a sequence of calls. *)
Fixpoint generated_ids (tr : list (Host * Call)) : list string :=
  match tr with
  | [] => []
  | (h, CreateInsurancePolicy _) :: rest => host_uuid h :: generated_ids rest
  | _ :: rest => generated_ids rest
  end.

(** * Properties *)

(** ** Guards and payloads *)

Lemma invalid_id_empty : invalid_id "" = true.
Proof. reflexivity. Qed.

Lemma invalid_id_nonempty id : id ≠ "" → invalid_id id = false.
Proof. destruct id; [congruence | reflexivity]. Qed.

Lemma invalid_id_true id : invalid_id id = true → id = "".
Proof. destruct id; [reflexivity | discriminate]. Qed.

Lemma invalid_payload_false payload : invalid_payload payload = false.
Proof. reflexivity. Qed.

Lemma has_field_true f (o : obj) : has_field f o = true ↔ f ∈ dom o.
Proof.
  unfold has_field. rewrite elem_of_dom.
  destruct (o !! f); split; intros H; try done; by destruct H.
Qed.

Lemma missing_field_Some fields (payload : obj) f :
  missing_field fields payload = Some f → f ∈ fields ∧ payload !! f = None.
Proof.
  induction fields as [|g rest IH]; simpl; [discriminate|].
  unfold has_field at 1. destruct (payload !! g) eqn:Hg; simpl.
  - intros H. destruct (IH H). split; [by right | done].
  - intros [= <-]. split; [by left | done].
Qed.

Lemma missing_field_None fields (payload : obj) :
  missing_field fields payload = None ↔ ∀ f, f ∈ fields → f ∈ dom payload.
Proof.
  induction fields as [|g rest IH]; simpl.
  - split; [intros _ f Hf; inversion Hf | done].
  - destruct (has_field g payload) eqn:Hg; simpl.
    + rewrite IH. apply has_field_true in Hg. split.
      * intros H f Hf. apply elem_of_cons in Hf as [->|Hf]; auto.
      * intros H f Hf. apply H. by right.
    + split; [discriminate|]. intros H.
      assert (g ∈ dom payload) as Hd by (apply H; by left).
      apply has_field_true in Hd. congruence.
Qed.

Lemma payload_full_check (payload : obj) :
  payload_full payload ↔ missing_field requiredFields payload = None.
Proof.
  rewrite missing_field_None. unfold payload_full. split.
  - intros H f Hf. apply H. by apply elem_of_list_to_set.
  - intros H f Hf. apply H. by apply elem_of_list_to_set in Hf.
Qed.

Lemma payload_typed_lookup (payload : obj) f :
  payload_typed payload → f ∉ requiredFields → payload !! f = None.
Proof.
  intros Ht Hf. apply not_elem_of_dom. intros Hd. apply Hf.
  apply Ht in Hd. by apply elem_of_list_to_set in Hd.
Qed.

Lemma id_not_required : "id" ∉ requiredFields.
Proof. apply (bool_decide_eq_false_1 _). reflexivity. Qed.

Lemma createdAt_not_required : "createdAt" ∉ requiredFields.
Proof. apply (bool_decide_eq_false_1 _). reflexivity. Qed.

Lemma updatedAt_not_required : "updatedAt" ∉ requiredFields.
Proof. apply (bool_decide_eq_false_1 _). reflexivity. Qed.

Lemma field_lookup (o : obj) f v : o !! f = Some v → field o f = v.
Proof. unfold field. by intros ->. Qed.

Lemma field_VString (o : obj) f k : field o f = VString k → o !! f = Some (VString k).
Proof. unfold field. destruct (o !! f); simpl; [by intros -> | discriminate]. Qed.

Lemma spread_lookup_old (a b : obj) f : b !! f = None → spread a b !! f = a !! f.
Proof. intros H. unfold spread. by apply lookup_union_r. Qed.

Lemma spread_lookup_new (a b : obj) f v :
  b !! f = Some v → spread a b !! f = Some v.
Proof. intros H. unfold spread. by apply lookup_union_Some_l. Qed.

Lemma storage_insert_Some key (v : obj) (s s' : Storage) :
  storage_insert key v s = Some s' ↔ ∃ k, key = VString k ∧ s' = <[k := v]> s.
Proof.
  destruct key; simpl; split;
    try discriminate; try (by intros (k & [=] & _)).
  - intros [= <-]. eauto.
  - by intros (k & [= ->] & ->).
Qed.

(** ** What each update method can do

    Every outcome of a method is one of: a failure that leaves the store as
    it was, or a success that puts the record it returns under that
    record's own [id]. *)

Lemma createInsurancePolicy_cases ic u (payload : obj) (s s' : Storage) r :
  createInsurancePolicy ic u payload s = Some (r, s') →
  (∃ f, missing_field requiredFields payload = Some f
        ∧ r = Err (missing_field_msg f) ∧ s' = s)
  ∨ (∃ k policy,
        missing_field requiredFields payload = None
        ∧ policy = spread (<["id" := VString u]>
                             (<["createdAt" := VNat64 (time ic)]>
                                (<["updatedAt" := VOpt None]> ∅))) payload
        ∧ policy !! "id" = Some (VString k)
        ∧ r = Ok policy ∧ s' = <[k := policy]> s).
Proof.
  unfold createInsurancePolicy. rewrite invalid_payload_false.
  destruct (missing_field requiredFields payload) as [f|] eqn:Hm.
  - intros [= <- <-]. left. eauto.
  - set (policy := spread _ payload). intros H. right.
    destruct (storage_insert (field policy "id") policy s) as [s1|] eqn:Hs;
      simpl in H; [|discriminate].
    injection H as <- <-.
    apply storage_insert_Some in Hs as (k & Hk & ->).
    exists k, policy. split_and!; try done. by apply field_VString.
Qed.

Lemma updateInsurancePolicy_cases ic id (payload : obj) (s s' : Storage) r :
  updateInsurancePolicy ic id payload s = Some (r, s') →
  (∃ msg, r = Err msg ∧ s' = s
          ∧ (id = "" ∧ msg = invalid_id_msg
             ∨ id ≠ "" ∧ (∃ f, missing_field requiredFields payload = Some f
                               ∧ msg = missing_field_msg f)
             ∨ id ≠ "" ∧ missing_field requiredFields payload = None
               ∧ s !! id = None ∧ msg = not_found_msg id))
  ∨ (∃ k existingPolicy updatedPolicy,
        id ≠ "" ∧ missing_field requiredFields payload = None
        ∧ s !! id = Some existingPolicy
        ∧ updatedPolicy = <["updatedAt" := VOpt (Some (time ic))]>
                            (spread existingPolicy payload)
        ∧ updatedPolicy !! "id" = Some (VString k)
        ∧ r = Ok updatedPolicy ∧ s' = <[k := updatedPolicy]> s).
Proof.
  unfold updateInsurancePolicy.
  destruct (invalid_id id) eqn:Hid.
  { apply invalid_id_true in Hid. intros [= <- <-]. left. eauto 10. }
  assert (id ≠ "") as Hne by (intros ->; discriminate).
  rewrite invalid_payload_false.
  destruct (missing_field requiredFields payload) as [f|] eqn:Hm.
  { intros [= <- <-]. left. eauto 10. }
  destruct (s !! id) as [existing|] eqn:Hs.
  - set (updated := <["updatedAt" := _]> (spread existing payload)).
    intros H. right.
    destruct (storage_insert (field updated "id") updated s) as [s1|] eqn:Hi;
      simpl in H; [|discriminate].
    injection H as <- <-.
    apply storage_insert_Some in Hi as (k & Hk & ->).
    exists k, existing, updated. split_and!; try done. by apply field_VString.
  - intros [= <- <-]. left. eauto 10.
Qed.

Lemma deleteInsurancePolicy_cases id (s s' : Storage) r :
  deleteInsurancePolicy id s = Some (r, s') →
  (∃ msg, r = Err msg ∧ s' = s
          ∧ (id = "" ∧ msg = invalid_id_msg
             ∨ id ≠ "" ∧ s !! id = None ∧ msg = not_found_msg id))
  ∨ (∃ existingPolicy,
        id ≠ "" ∧ s !! id = Some existingPolicy
        ∧ r = Ok existingPolicy ∧ s' = delete id s).
Proof.
  unfold deleteInsurancePolicy.
  destruct (invalid_id id) eqn:Hid.
  { apply invalid_id_true in Hid. intros [= <- <-]. left. eauto 10. }
  assert (id ≠ "") as Hne by (intros ->; discriminate).
  destruct (s !! id) as [existing|] eqn:Hs; intros [= <- <-].
  - right. eauto.
  - left. eauto 10.
Qed.

Lemma fileClaim_cases ic id (s s' : Storage) r :
  fileClaim ic id s = Some (r, s') →
  (∃ msg, r = Err msg ∧ s' = s
          ∧ (id = "" ∧ msg = invalid_id_msg
             ∨ id ≠ "" ∧ s !! id = None ∧ msg = not_found_msg id
             ∨ id ≠ "" ∧ (∃ policy, s !! id = Some policy
                                    ∧ isClaimed policy = true)
               ∧ msg = already_filed_msg id))
  ∨ (∃ k policy updatedPolicy,
        id ≠ "" ∧ s !! id = Some policy ∧ isClaimed policy = false
        ∧ updatedPolicy = <["updatedAt" := VOpt (Some (time ic))]>
                            (<["isClaimed" := VBool true]> policy)
        ∧ updatedPolicy !! "id" = Some (VString k)
        ∧ r = Ok updatedPolicy ∧ s' = <[k := updatedPolicy]> s).
Proof.
  unfold fileClaim.
  destruct (invalid_id id) eqn:Hid.
  { apply invalid_id_true in Hid. intros [= <- <-]. left. eauto 10. }
  assert (id ≠ "") as Hne by (intros ->; discriminate).
  destruct (s !! id) as [policy|] eqn:Hs.
  - fold (isClaimed policy). destruct (isClaimed policy) eqn:Hc.
    { intros [= <- <-]. left. eauto 12. }
    set (updated := <["updatedAt" := _]> (<["isClaimed" := _]> policy)).
    intros H. right.
    destruct (storage_insert (field updated "id") updated s) as [s1|] eqn:Hi;
      simpl in H; [|discriminate].
    injection H as <- <-.
    apply storage_insert_Some in Hi as (k & Hk & ->).
    exists k, policy, updated. split_and!; try done. by apply field_VString.
  - intros [= <- <-]. left. eauto 10.
Qed.

(** ** When the update methods succeed *)

Lemma createInsurancePolicy_runs ic u (payload : obj) (s : Storage) :
  payload_full payload → payload_typed payload →
  let policy := spread (<["id" := VString u]>
                          (<["createdAt" := VNat64 (time ic)]>
                             (<["updatedAt" := VOpt None]> ∅))) payload in
  createInsurancePolicy ic u payload s = Some (Ok policy, <[u := policy]> s)
  ∧ policy !! "id" = Some (VString u)
  ∧ policy !! "createdAt" = Some (VNat64 (time ic))
  ∧ policy !! "updatedAt" = Some (VOpt None).
Proof.
  intros Hfull Htyped policy.
  assert (policy !! "id" = Some (VString u)) as Hid.
  { unfold policy. rewrite spread_lookup_old; [done|].
    apply payload_typed_lookup; [done | apply id_not_required]. }
  split_and!; [|done|..].
  - unfold createInsurancePolicy. rewrite invalid_payload_false.
    apply payload_full_check in Hfull. rewrite Hfull.
    fold policy. by rewrite (field_lookup _ _ _ Hid).
  - unfold policy. rewrite spread_lookup_old; [done|].
    apply payload_typed_lookup; [done | apply createdAt_not_required].
  - unfold policy. rewrite spread_lookup_old; [done|].
    apply payload_typed_lookup; [done | apply updatedAt_not_required].
Qed.

Lemma updateInsurancePolicy_runs ic id (payload existingPolicy : obj)
    (s : Storage) :
  id ≠ "" → s !! id = Some existingPolicy →
  existingPolicy !! "id" = Some (VString id) →
  payload_full payload → payload_typed payload →
  let updatedPolicy := <["updatedAt" := VOpt (Some (time ic))]>
                         (spread existingPolicy payload) in
  updateInsurancePolicy ic id payload s
    = Some (Ok updatedPolicy, <[id := updatedPolicy]> s)
  ∧ updatedPolicy !! "id" = Some (VString id)
  ∧ updatedPolicy !! "createdAt" = existingPolicy !! "createdAt"
  ∧ updatedPolicy !! "updatedAt" = Some (VOpt (Some (time ic))).
Proof.
  intros Hne Hs Hkey Hfull Htyped updated.
  assert (updated !! "id" = Some (VString id)) as Hid.
  { unfold updated. rewrite lookup_insert_ne; [|done].
    rewrite spread_lookup_old; [done|].
    apply payload_typed_lookup; [done | apply id_not_required]. }
  split_and!; [|done|..].
  - unfold updateInsurancePolicy.
    rewrite invalid_id_nonempty, invalid_payload_false by done.
    apply payload_full_check in Hfull. rewrite Hfull, Hs.
    fold updated. by rewrite (field_lookup _ _ _ Hid).
  - unfold updated. rewrite lookup_insert_ne; [|done].
    apply spread_lookup_old.
    apply payload_typed_lookup; [done | apply createdAt_not_required].
  - unfold updated. by rewrite lookup_insert_eq.
Qed.

Lemma fileClaim_runs ic id (policy : obj) (s : Storage) :
  id ≠ "" → s !! id = Some policy → policy !! "id" = Some (VString id) →
  isClaimed policy = false →
  let updatedPolicy := <["updatedAt" := VOpt (Some (time ic))]>
                         (<["isClaimed" := VBool true]> policy) in
  fileClaim ic id s = Some (Ok updatedPolicy, <[id := updatedPolicy]> s)
  ∧ updatedPolicy !! "id" = Some (VString id)
  ∧ isClaimed updatedPolicy = true.
Proof.
  intros Hne Hs Hkey Hc updated.
  assert (updated !! "id" = Some (VString id)) as Hid.
  { unfold updated. by rewrite !lookup_insert_ne. }
  split_and!; [|done|].
  - unfold fileClaim. rewrite invalid_id_nonempty, Hs by done.
    fold (isClaimed policy). rewrite Hc. fold updated.
    by rewrite (field_lookup _ _ _ Hid).
  - unfold isClaimed, field, updated.
    rewrite lookup_insert_ne, lookup_insert_eq; done.
Qed.

Lemma fileClaim_claimed ic id (policy : obj) (s : Storage) :
  id ≠ "" → s !! id = Some policy → isClaimed policy = true →
  fileClaim ic id s = Some (Err (already_filed_msg id), s).
Proof.
  intros Hne Hs Hc. unfold fileClaim.
  rewrite invalid_id_nonempty, Hs by done.
  fold (isClaimed policy). by rewrite Hc.
Qed.

(** ** What holds of every store the registry gets to *)

Lemma policy_ok_later last last' k (policy : obj) :
  last ≤ last' → policy_ok last k policy → policy_ok last' k policy.
Proof.
  intros Hle (Hk & Hid & (c & Hc & Hcl) & (u & Hu & Hul)).
  split_and!; [done | done | exists c | exists u]; split; try done; try lia.
  intros t Ht. specialize (Hul t Ht). lia.
Qed.

Lemma store_ok_later last last' (s : Storage) :
  last ≤ last' → store_ok last s → store_ok last' s.
Proof. intros Hle H k policy Hk. eapply policy_ok_later; eauto. Qed.

Lemma store_ok_insert last k (policy : obj) (s : Storage) :
  store_ok last s → policy_ok last k policy → store_ok last (<[k := policy]> s).
Proof.
  intros Hs Hp k' policy' H.
  apply lookup_insert_Some in H as [[<- <-]|[_ H]]; [done | by apply Hs].
Qed.

Lemma store_ok_delete last k (s : Storage) :
  store_ok last s → store_ok last (delete k s).
Proof.
  intros Hs k' policy' H. apply lookup_delete_Some in H as [_ H]. by apply Hs.
Qed.

Lemma store_ok_empty last : store_ok last ∅.
Proof. intros k policy H. by rewrite lookup_empty in H. Qed.

Section Reachability.

Variable identical : value → value → bool.

(** Splits a call that went through into the method it ran. *)
Ltac method_of H :=
  simpl in H;
  match type of H with
  | context [createInsurancePolicy ?i ?u ?p ?s] =>
      let E := fresh "Hcall" in
      destruct (createInsurancePolicy i u p s) as [[? ?]|] eqn:E;
      simpl in H; [|discriminate]; injection H as <- <-
  | context [updateInsurancePolicy ?i ?k ?p ?s] =>
      let E := fresh "Hcall" in
      destruct (updateInsurancePolicy i k p s) as [[? ?]|] eqn:E;
      simpl in H; [|discriminate]; injection H as <- <-
  | context [deleteInsurancePolicy ?k ?s] =>
      let E := fresh "Hcall" in
      destruct (deleteInsurancePolicy k s) as [[? ?]|] eqn:E;
      simpl in H; [|discriminate]; injection H as <- <-
  | context [fileClaim ?i ?k ?s] =>
      let E := fresh "Hcall" in
      destruct (fileClaim i k s) as [[? ?]|] eqn:E;
      simpl in H; [|discriminate]; injection H as <- <-
  | _ => injection H as <- <-
  end.

Lemma invoke_store_ok h c (s s' : Storage) r last :
  store_ok last s → typed_call c → host_uuid h ≠ "" →
  last ≤ time (host_ic h) →
  invoke identical h c s = Some (r, s') → store_ok (time (host_ic h)) s'.
Proof.
  intros Hs Hty Hu Hle H.
  assert (store_ok (time (host_ic h)) s) as Hs' by by eapply store_ok_later.
  destruct c as [payload|id| |id payload|id|id]; method_of H; try done.
  - apply createInsurancePolicy_cases in Hcall
      as [(f & _ & _ & ->)|(k & policy & _ & Hp & Hid & _ & ->)]; [done|].
    apply store_ok_insert; [done|].
    assert (policy !! "id" = Some (VString (host_uuid h))) as Hid'.
    { rewrite Hp, spread_lookup_old; [done|].
      apply payload_typed_lookup; [done | apply id_not_required]. }
    assert (k = host_uuid h) as -> by congruence.
    split_and!; [done | done | |].
    + exists (time (host_ic h)). split; [|lia].
      rewrite Hp, spread_lookup_old; [done|].
      apply payload_typed_lookup; [done | apply createdAt_not_required].
    + exists None. split; [|done].
      rewrite Hp, spread_lookup_old; [done|].
      apply payload_typed_lookup; [done | apply updatedAt_not_required].
  - apply updateInsurancePolicy_cases in Hcall
      as [(msg & _ & -> & _)
         |(k & old & new & Hne & _ & Hold & Hnew & Hid & _ & ->)]; [done|].
    apply store_ok_insert; [done|].
    destruct (Hs' _ _ Hold) as (_ & Hoid & (c & Hc & Hcl) & _).
    assert (new !! "id" = Some (VString id)) as Hid'.
    { rewrite Hnew, lookup_insert_ne by done.
      rewrite spread_lookup_old; [done|].
      apply payload_typed_lookup; [done | apply id_not_required]. }
    assert (k = id) as -> by congruence.
    split_and!; [done | done | |].
    + exists c. split; [|done].
      rewrite Hnew, lookup_insert_ne by done.
      rewrite spread_lookup_old; [done|].
      apply payload_typed_lookup; [done | apply createdAt_not_required].
    + exists (Some (time (host_ic h))). split.
      * by rewrite Hnew, lookup_insert_eq.
      * intros t [= <-]. lia.
  - apply deleteInsurancePolicy_cases in Hcall
      as [(msg & _ & -> & _)|(old & _ & _ & _ & ->)]; [done|].
    by apply store_ok_delete.
  - apply fileClaim_cases in Hcall
      as [(msg & _ & -> & _)
         |(k & old & new & Hne & Hold & _ & Hnew & Hid & _ & ->)]; [done|].
    apply store_ok_insert; [done|].
    destruct (Hs' _ _ Hold) as (_ & Hoid & (c & Hc & Hcl) & _).
    assert (new !! "id" = Some (VString id)) as Hid'.
    { by rewrite Hnew, !lookup_insert_ne. }
    assert (k = id) as -> by congruence.
    split_and!; [done | done | |].
    + exists c. split; [|done]. by rewrite Hnew, !lookup_insert_ne.
    + exists (Some (time (host_ic h))). split.
      * by rewrite Hnew, lookup_insert_eq.
      * intros t [= <-]. lia.
Qed.

Lemma run_store_ok tr : ∀ (s s' : Storage) last,
  store_ok last s → hosted last tr → run identical tr s = Some s' →
  store_ok (clock_after last tr) s'.
Proof.
  induction tr as [|[h c] rest IH]; intros s s' last Hs Hh H; simpl in *.
  - by injection H as <-.
  - destruct Hh as (Hty & Hu & Hle & Hrest).
    destruct (invoke identical h c s) as [[r s1]|] eqn:Hi;
      simpl in H; [|discriminate].
    eapply IH; [|done|done]. eapply invoke_store_ok; eauto.
Qed.

Lemma reachable_store_ok last (s : Storage) :
  reachable identical last s → store_ok last s.
Proof.
  intros (tr & Hh & Hr & <-).
  eapply run_store_ok; [apply store_ok_empty|done|done].
Qed.

(** A call never faults on a store of the registry when the host keeps
    its side: the record it writes carries a text id. *)
Lemma invoke_total h c (s : Storage) last :
  store_ok last s → typed_call c → is_Some (invoke identical h c s).
Proof.
  intros Hs Hty.
  destruct c as [payload|id| |id payload|id|id]; simpl; try done.
  - destruct (missing_field requiredFields payload) as [f|] eqn:Hm.
    + unfold createInsurancePolicy.
      by rewrite invalid_payload_false, Hm.
    + apply payload_full_check in Hm.
      destruct (createInsurancePolicy_runs (host_ic h) (host_uuid h)
                  payload s Hm Hty) as [-> _]. done.
  - destruct (updateInsurancePolicy (host_ic h) id payload s)
      as [[r s']|] eqn:E; [done|exfalso].
    revert E. unfold updateInsurancePolicy.
    destruct (invalid_id id) eqn:Hid; [done|].
    rewrite invalid_payload_false.
    destruct (missing_field requiredFields payload) as [f|] eqn:Hm; [done|].
    destruct (s !! id) as [old|] eqn:Hold; [|done].
    apply payload_full_check in Hm.
    destruct (Hs _ _ Hold) as (Hne & Hoid & _).
    destruct (updateInsurancePolicy_runs (host_ic h) id payload old s
                Hne Hold Hoid Hm Hty) as [E _].
    unfold updateInsurancePolicy in E.
    rewrite Hid, invalid_payload_false in E.
    apply payload_full_check in Hm. rewrite Hm, Hold in E.
    rewrite E. done.
  - unfold deleteInsurancePolicy.
    destruct (invalid_id id); [done|]. by destruct (s !! id).
  - destruct (fileClaim (host_ic h) id s) as [[r s']|] eqn:E; [done|exfalso].
    revert E. unfold fileClaim.
    destruct (invalid_id id) eqn:Hid; [done|].
    destruct (s !! id) as [old|] eqn:Hold; [|done].
    fold (isClaimed old). destruct (isClaimed old) eqn:Hc; [done|].
    destruct (Hs _ _ Hold) as (Hne & Hoid & _).
    destruct (fileClaim_runs (host_ic h) id old s Hne Hold Hoid Hc)
      as [E _].
    unfold fileClaim in E. rewrite Hid, Hold in E.
    fold (isClaimed old) in E. rewrite Hc in E. rewrite E. done.
Qed.

Lemma run_total tr : ∀ (s : Storage) last,
  store_ok last s → hosted last tr → is_Some (run identical tr s).
Proof.
  induction tr as [|[h c] rest IH]; intros s last Hs Hh; simpl in *.
  - done.
  - destruct Hh as (Hty & Hu & Hle & Hrest).
    destruct (invoke_total h c s last Hs Hty) as [[r s1] Hi].
    rewrite Hi. simpl. eapply IH; [|done].
    eapply invoke_store_ok; eauto.
Qed.

End Reachability.

(** ** The sample registry *)

Lemma sample_payload_typed : payload_typed sample_payload.
Proof. apply (bool_decide_unpack _). vm_compute. exact I. Qed.

Lemma sample_payload_full : payload_full sample_payload.
Proof. apply (bool_decide_unpack _). vm_compute. exact I. Qed.

Lemma claimed_payload_typed : payload_typed claimed_payload.
Proof. apply (bool_decide_unpack _). vm_compute. exact I. Qed.

Lemma sample_store_reachable : reachable never_identical 10 sample_store.
Proof.
  exists [(sample_host "2vxsx-fae" 10 "p-1", CreateInsurancePolicy sample_payload)].
  split_and!; [|reflexivity|reflexivity].
  simpl. split_and!; [apply sample_payload_typed | done | lia | done].
Qed.

Lemma claimed_store_reachable : reachable never_identical 10 claimed_store.
Proof.
  exists [(sample_host "2vxsx-fae" 10 "p-1", CreateInsurancePolicy claimed_payload)].
  split_and!; [|reflexivity|reflexivity].
  simpl. split_and!; [apply claimed_payload_typed | done | lia | done].
Qed.

(** A policy is created, claimed, claimed again, deleted and looked up. *)
Example lifecycle :
  let p0 := created 10 "p-1" sample_payload in
  let p1 := <["updatedAt" := VOpt (Some 20)]> (<["isClaimed" := VBool true]> p0) in
  createInsurancePolicy (mkIC "2vxsx-fae" 10) "p-1" sample_payload ∅
    = Some (Ok p0, sample_store)
  ∧ fileClaim (mkIC "2vxsx-fae" 20) "p-1" sample_store
    = Some (Ok p1, <["p-1" := p1]> sample_store)
  ∧ fileClaim (mkIC "2vxsx-fae" 30) "p-1" (<["p-1" := p1]> sample_store)
    = Some (Err (already_filed_msg "p-1"), <["p-1" := p1]> sample_store)
  ∧ deleteInsurancePolicy "p-1" (<["p-1" := p1]> sample_store) = Some (Ok p1, ∅)
  ∧ getInsurancePolicy "p-1" ∅ = Err (not_found_msg "p-1")
  ∧ not_found_msg "p-1" = "Insurance Policy with ID=p-1 not found.".
Proof. split_and!; reflexivity. Qed.

(** ** The two copies

    On an id that is not empty and a payload with the six fields, the
    guarded methods do what the unguarded ones do. *)

Lemma guards_pass_wellformed ic u id (payload : obj) (s : Storage) :
  id ≠ "" →
  getInsurancePolicy id s = Unguarded.getInsurancePolicy id s
  ∧ deleteInsurancePolicy id s = Unguarded.deleteInsurancePolicy id s
  ∧ fileClaim ic id s = Unguarded.fileClaim ic id s
  ∧ (payload_full payload →
       createInsurancePolicy ic u payload s
       = Unguarded.createInsurancePolicy ic u payload s
       ∧ updateInsurancePolicy ic id payload s
         = Unguarded.updateInsurancePolicy ic id payload s).
Proof.
  intros Hne.
  unfold getInsurancePolicy, deleteInsurancePolicy, fileClaim,
    createInsurancePolicy, updateInsurancePolicy.
  rewrite invalid_id_nonempty, invalid_payload_false by done.
  split_and!; try done.
  - unfold Unguarded.fileClaim. destruct (s !! id) as [policy|]; [|done].
    by destruct (truthy (field policy "isClaimed")).
  - intros Hfull. apply payload_full_check in Hfull. by rewrite Hfull.
Qed.

(** Without the guard on the payload, a payload that lacks a field is
    stored as it comes. *)
Lemma unguarded_create_stores_partial :
  ∃ policy,
    Unguarded.createInsurancePolicy (mkIC "2vxsx-fae" 20) "p-2" partial_payload
      sample_store
    = Some (Ok policy, <["p-2" := policy]> sample_store)
    ∧ policy !! "isClaimed" = None.
Proof. eexists. split; reflexivity. Qed.

(** ** Listing the caller's policies *)

Lemma storage_values_spec (s : Storage) (policy : obj) :
  policy ∈ storage_values s ↔ ∃ k, s !! k = Some policy.
Proof.
  unfold storage_values. rewrite list_elem_of_fmap. split.
  - intros ([k p] & -> & H). exists k. by apply elem_of_map_to_list in H.
  - intros (k & H). exists (k, policy). split; [done|].
    by apply elem_of_map_to_list.
Qed.

(** The copy without the guard lists the caller's policies: it always
    succeeds, with the stored records whose [policyHolder] is [===] to
    the caller. *)
Lemma unguarded_getAllInsurancePolicies_lists identical ic (s : Storage) :
  ∃ found,
    Unguarded.getAllInsurancePolicies identical ic s = Ok found
    ∧ ∀ policy : obj,
        policy ∈ found ↔
        (∃ k, s !! k = Some policy)
        ∧ strict_eq identical (field policy "policyHolder")
            (VPrincipal (caller ic)) = true.
Proof.
  eexists. split; [reflexivity|]. intros policy.
  rewrite list_elem_of_filter, storage_values_spec. tauto.
Qed.

(** C2, what the code does: [ic.caller()] is a [Principal], an object, so
    [typeof currentUserId !== "string"] holds for every caller and
    [getAllInsurancePolicies] gives the failure "Invalid current user ID."
    whatever the store holds; it never gets to the filter. *)
Theorem getAllInsurancePolicies_rejects_every_caller identical ic (s : Storage) :
  getAllInsurancePolicies identical ic s = Err invalid_caller_msg.
Proof.
  unfold getAllInsurancePolicies.
  assert (typeof (VPrincipal (caller ic)) = "object") as -> by reflexivity.
  assert (String.eqb "object" "string" = false) as -> by reflexivity.
  by rewrite orb_true_r.
Qed.

(** ** Filing a claim *)

(** C3: on a store in which records sit under their own id, and for a
    non-empty [id] that is present: a claimed policy gives the failure
    "... has already been filed." and the store stays as it is; an
    unclaimed one is stored and returned with [isClaimed] true and
    [updatedAt] the time of the call, every other field as it was; and a
    second [fileClaim] on the store so obtained is the same failure and
    leaves that store, hence [isClaimed] and [updatedAt], as the first call
    left them. *)
Theorem fileClaim_once ic ic' id (policy : obj) (s : Storage) :
  keyed s → id ≠ "" → s !! id = Some policy →
  (isClaimed policy = true →
     fileClaim ic id s = Some (Err (already_filed_msg id), s)
     ∧ failure_of id Conflict (already_filed_msg id))
  ∧ (isClaimed policy = false →
     let updatedPolicy := <["updatedAt" := VOpt (Some (time ic))]>
                            (<["isClaimed" := VBool true]> policy) in
     let s' := <[id := updatedPolicy]> s in
     fileClaim ic id s = Some (Ok updatedPolicy, s')
     ∧ s' !! id = Some updatedPolicy
     ∧ updatedPolicy !! "isClaimed" = Some (VBool true)
     ∧ updatedPolicy !! "updatedAt" = Some (VOpt (Some (time ic)))
     ∧ (∀ f, f ≠ "isClaimed" → f ≠ "updatedAt" →
             updatedPolicy !! f = policy !! f)
     ∧ (∀ k, k ≠ id → s' !! k = s !! k)
     ∧ fileClaim ic' id s' = Some (Err (already_filed_msg id), s')).
Proof.
  intros Hkeyed Hne Hs. split.
  - intros Hc. split; [by eapply fileClaim_claimed | done].
  - intros Hc updated s'.
    destruct (fileClaim_runs ic id policy s Hne Hs (Hkeyed _ _ Hs) Hc)
      as (Hrun & Hid & Hclaimed).
    split_and!.
    + exact Hrun.
    + apply lookup_insert_eq.
    + unfold updated. by rewrite lookup_insert_ne, lookup_insert_eq.
    + unfold updated. by rewrite lookup_insert_eq.
    + intros f Hf1 Hf2. unfold updated. by rewrite !lookup_insert_ne.
    + intros k Hk. unfold s'. by rewrite lookup_insert_ne.
    + eapply fileClaim_claimed; [done | apply lookup_insert_eq | exact Hclaimed].
Qed.

Lemma fileClaim_once_witness :
  let policy := created 10 "p-1" sample_payload in
  let updatedPolicy := <["updatedAt" := VOpt (Some 20)]>
                         (<["isClaimed" := VBool true]> policy) in
  let s' := <["p-1" := updatedPolicy]> sample_store in
  (keyed sample_store ∧ "p-1" ≠ "" ∧ sample_store !! "p-1" = Some policy
   ∧ isClaimed policy = false)
  ∧ fileClaim (mkIC "2vxsx-fae" 20) "p-1" sample_store = Some (Ok updatedPolicy, s')
  ∧ fileClaim (mkIC "2vxsx-fae" 30) "p-1" s' = Some (Err (already_filed_msg "p-1"), s').
Proof.
  intros policy updatedPolicy s'.
  assert (keyed sample_store) as Hkeyed.
  { intros k p H. unfold sample_store in H.
    apply lookup_insert_Some in H as [[<- <-]|[_ H]]; [reflexivity|].
    by rewrite lookup_empty in H. }
  assert ("p-1" ≠ "") as Hne by discriminate.
  assert (sample_store !! "p-1" = Some policy) as Hs by reflexivity.
  assert (isClaimed policy = false) as Hc by reflexivity.
  split; [by split_and!|].
  destruct (proj2 (fileClaim_once (mkIC "2vxsx-fae" 20) (mkIC "2vxsx-fae" 30)
                     "p-1" policy sample_store Hkeyed Hne Hs) Hc)
    as (H1 & _ & _ & _ & _ & _ & H2).
  split; [exact H1 | exact H2].
Defined.

(** ** Records sit under their own id *)

Lemma keyed_empty : keyed ∅.
Proof. intros k policy H. by rewrite lookup_empty in H. Qed.

Lemma keyed_insert k (policy : obj) (s : Storage) :
  keyed s → policy !! "id" = Some (VString k) → keyed (<[k := policy]> s).
Proof.
  intros Hs Hp k' policy' H.
  apply lookup_insert_Some in H as [[<- <-]|[_ H]]; [done | by apply Hs].
Qed.

Lemma keyed_delete k (s : Storage) : keyed s → keyed (delete k s).
Proof.
  intros Hs k' policy' H. apply lookup_delete_Some in H as [_ H]. by apply Hs.
Qed.

Lemma invoke_keyed identical h c (s s' : Storage) r :
  keyed s → invoke identical h c s = Some (r, s') → keyed s'.
Proof.
  intros Hs H.
  destruct c as [payload|k| |k payload|k|k]; simpl in H.
  - destruct (createInsurancePolicy _ _ payload s) as [[r0 s0]|] eqn:Hcall;
      simpl in H; [|discriminate]. injection H as <- <-.
    apply createInsurancePolicy_cases in Hcall
      as [(f & _ & _ & ->)|(j & policy & _ & _ & Hid & _ & ->)]; [done|].
    by apply keyed_insert.
  - by injection H as <- <-.
  - by injection H as <- <-.
  - destruct (updateInsurancePolicy _ k payload s) as [[r0 s0]|] eqn:Hcall;
      simpl in H; [|discriminate]. injection H as <- <-.
    apply updateInsurancePolicy_cases in Hcall
      as [(msg & _ & -> & _)|(j & old & new & _ & _ & _ & _ & Hid & _ & ->)];
      [done|].
    by apply keyed_insert.
  - destruct (deleteInsurancePolicy k s) as [[r0 s0]|] eqn:Hcall;
      simpl in H; [|discriminate]. injection H as <- <-.
    apply deleteInsurancePolicy_cases in Hcall
      as [(msg & _ & -> & _)|(old & _ & _ & _ & ->)]; [done|].
    by apply keyed_delete.
  - destruct (fileClaim _ k s) as [[r0 s0]|] eqn:Hcall;
      simpl in H; [|discriminate]. injection H as <- <-.
    apply fileClaim_cases in Hcall
      as [(msg & _ & -> & _)|(j & old & new & _ & _ & _ & _ & Hid & _ & ->)];
      [done|].
    by apply keyed_insert.
Qed.

Lemma run_keyed identical tr : ∀ s s' : Storage,
  keyed s → run identical tr s = Some s' → keyed s'.
Proof.
  induction tr as [|[h c] rest IH]; intros s s' Hs H; simpl in H.
  - by injection H as <-.
  - destruct (invoke identical h c s) as [[r s1]|] eqn:Hi;
      simpl in H; [|discriminate].
    eapply IH; [|done]. by eapply invoke_keyed.
Qed.

(** C10: whatever sequence of calls of the six methods is run from the
    empty store, with whatever payloads and host, every record of the
    store it ends in has as [id] the key it is stored under; and a
    [createInsurancePolicy], [updateInsurancePolicy] or [fileClaim] that
    succeeds on that store puts the record it returns under that record's
    own [id]. *)
Theorem stored_under_own_id identical tr (s : Storage) :
  run identical tr ∅ = Some s →
  keyed s
  ∧ (∀ ic u payload (policy : obj) (s' : Storage),
       createInsurancePolicy ic u payload s = Some (Ok policy, s') →
       ∃ k, policy !! "id" = Some (VString k) ∧ s' = <[k := policy]> s ∧ keyed s')
  ∧ (∀ ic id payload (policy : obj) (s' : Storage),
       updateInsurancePolicy ic id payload s = Some (Ok policy, s') →
       ∃ k, policy !! "id" = Some (VString k) ∧ s' = <[k := policy]> s ∧ keyed s')
  ∧ (∀ ic id (policy : obj) (s' : Storage),
       fileClaim ic id s = Some (Ok policy, s') →
       ∃ k, policy !! "id" = Some (VString k) ∧ s' = <[k := policy]> s ∧ keyed s').
Proof.
  intros Hrun.
  assert (keyed s) as Hs by (eapply run_keyed; [apply keyed_empty | done]).
  split_and!; [done|..].
  - intros ic u payload policy s' H.
    apply createInsurancePolicy_cases in H
      as [(f & _ & [=] & _)|(k & p & _ & _ & Hid & [= <-] & ->)].
    exists k. split_and!; [done | done | by apply keyed_insert].
  - intros ic id payload policy s' H.
    apply updateInsurancePolicy_cases in H
      as [(msg & [=] & _)|(k & old & p & _ & _ & _ & _ & Hid & [= <-] & ->)].
    exists k. split_and!; [done | done | by apply keyed_insert].
  - intros ic id policy s' H.
    apply fileClaim_cases in H
      as [(msg & [=] & _)|(k & old & p & _ & _ & _ & _ & Hid & [= <-] & ->)].
    exists k. split_and!; [done | done | by apply keyed_insert].
Qed.

Lemma stored_under_own_id_witness :
  let tr := [(sample_host "2vxsx-fae" 10 "p-1", CreateInsurancePolicy sample_payload);
             (sample_host "un4fu-tqaaa-aaaab-qadjq-cai" 20 "p-2", FileClaim "p-1")] in
  let s := <["p-1" := <["updatedAt" := VOpt (Some 20)]>
                        (<["isClaimed" := VBool true]>
                           (created 10 "p-1" sample_payload))]> sample_store in
  run never_identical tr ∅ = Some s ∧ keyed s.
Proof.
  intros tr s.
  assert (run never_identical tr ∅ = Some s) as Hrun by reflexivity.
  split; [exact Hrun|].
  exact (proj1 (stored_under_own_id never_identical tr s Hrun)).
Defined.

(** ** The claim flag *)

Lemma required_isClaimed (payload : obj) :
  missing_field requiredFields payload = None → is_Some (payload !! "isClaimed").
Proof.
  intros H. apply elem_of_dom.
  eapply missing_field_None; [done|]. apply (bool_decide_unpack _). reflexivity.
Qed.

Lemma invoke_keeps_claimed identical h c (s s' : Storage) r id :
  keyed s → typed_call c → host_uuid h ≠ id → spares_claim id c →
  invoke identical h c s = Some (r, s') →
  (∀ policy, s !! id = Some policy → isClaimed policy = true) →
  ∀ policy', s' !! id = Some policy' → isClaimed policy' = true.
Proof.
  intros Hkeyed Hty Hu Hspares H Hs policy' Hp.
  destruct c as [payload|k| |k payload|k|k]; simpl in H.
  - destruct (createInsurancePolicy _ _ payload s) as [[r0 s0]|] eqn:Hcall;
      simpl in H; [|discriminate]. injection H as <- <-.
    apply createInsurancePolicy_cases in Hcall
      as [(f & _ & _ & ->)|(k & policy & _ & Hpol & Hid & _ & ->)]; [eauto|].
    assert (policy !! "id" = Some (VString (host_uuid h))) as Hid'.
    { rewrite Hpol, spread_lookup_old; [done|].
      apply payload_typed_lookup; [done | apply id_not_required]. }
    assert (k = host_uuid h) as -> by congruence.
    rewrite lookup_insert_ne in Hp by done. eauto.
  - injection H as <- <-. eauto.
  - injection H as <- <-. eauto.
  - destruct (updateInsurancePolicy _ k payload s) as [[r0 s0]|] eqn:Hcall;
      simpl in H; [|discriminate]. injection H as <- <-.
    apply updateInsurancePolicy_cases in Hcall
      as [(msg & _ & -> & _)
         |(j & old & new & _ & Hm & Hold & Hnew & Hid & _ & ->)]; [eauto|].
    assert (new !! "id" = Some (VString k)) as Hid'.
    { rewrite Hnew, lookup_insert_ne by done.
      rewrite spread_lookup_old; [by apply Hkeyed|].
      apply payload_typed_lookup; [done | apply id_not_required]. }
    assert (j = k) as -> by congruence.
    destruct Hspares as [Hk|[Hc|[f Hf]]]; [| |congruence].
    + rewrite lookup_insert_ne in Hp by done. eauto.
    + apply lookup_insert_Some in Hp as [[_ <-]|[_ Hp]]; [|eauto].
      destruct (required_isClaimed _ Hm) as [v Hv].
      unfold isClaimed, field in Hc |- *. rewrite Hv in Hc.
      rewrite Hnew, lookup_insert_ne by done.
      by rewrite (spread_lookup_new _ _ _ _ Hv).
  - destruct (deleteInsurancePolicy k s) as [[r0 s0]|] eqn:Hcall;
      simpl in H; [|discriminate]. injection H as <- <-.
    apply deleteInsurancePolicy_cases in Hcall
      as [(msg & _ & -> & _)|(old & _ & _ & _ & ->)]; [eauto|].
    apply lookup_delete_Some in Hp as [_ Hp]. eauto.
  - destruct (fileClaim _ k s) as [[r0 s0]|] eqn:Hcall;
      simpl in H; [|discriminate]. injection H as <- <-.
    apply fileClaim_cases in Hcall
      as [(msg & _ & -> & _)
         |(j & old & new & _ & _ & _ & Hnew & _ & _ & ->)]; [eauto|].
    apply lookup_insert_Some in Hp as [[<- <-]|[_ Hp]]; [|eauto].
    unfold isClaimed, field. rewrite Hnew.
    by rewrite lookup_insert_ne, lookup_insert_eq.
Qed.

Lemma run_keeps_claimed identical tr : ∀ (s s' : Storage) id,
  keyed s →
  Forall (λ hc : Host * Call,
            typed_call hc.2 ∧ host_uuid hc.1 ≠ id ∧ spares_claim id hc.2) tr →
  run identical tr s = Some s' →
  (∀ policy, s !! id = Some policy → isClaimed policy = true) →
  ∀ policy', s' !! id = Some policy' → isClaimed policy' = true.
Proof.
  induction tr as [|[h c] rest IH]; intros s s' id Hkeyed Hall Hrun Hs.
  - by injection Hrun as <-.
  - apply Forall_cons in Hall as [(Hty & Hu & Hsp) Hall]. simpl in *.
    destruct (invoke identical h c s) as [[r s1]|] eqn:Hi;
      simpl in Hrun; [|discriminate].
    eapply (IH s1 s' id); [by eapply invoke_keyed | done | done |].
    eapply invoke_keeps_claimed; eauto.
Qed.

Lemma update_stores_payload_flag ic id (payload new : obj) (s s2 : Storage) :
  keyed s → payload_typed payload →
  updateInsurancePolicy ic id payload s = Some (Ok new, s2) →
  s2 !! id = Some new
  ∧ is_Some (payload !! "isClaimed")
  ∧ new !! "isClaimed" = payload !! "isClaimed".
Proof.
  intros Hkeyed Hty Hup.
  apply updateInsurancePolicy_cases in Hup
    as [(msg & [=] & _)
       |(k & old & new' & _ & Hm & Hold & Hnew & Hid & [= <-] & ->)].
  assert (new !! "id" = Some (VString id)) as Hid'.
  { rewrite Hnew, lookup_insert_ne by done.
    rewrite spread_lookup_old; [by apply Hkeyed|].
    apply payload_typed_lookup; [done | apply id_not_required]. }
  assert (k = id) as -> by congruence.
  pose proof (required_isClaimed _ Hm) as [v Hv].
  split_and!; [apply lookup_insert_eq | by exists v |].
  rewrite Hnew, lookup_insert_ne by done.
  rewrite Hv. by apply spread_lookup_new.
Qed.

(** C1, against the code: [updateInsurancePolicy] on a claimed policy with
    a payload whose [isClaimed] is false stores the policy as unclaimed.
    The store is one the registry gets to: a policy created as claimed. *)
Lemma isClaimed_reset_by_update :
  let old := created 10 "p-1" claimed_payload in
  let new := <["updatedAt" := VOpt (Some 20)]> (spread old sample_payload) in
  reachable never_identical 10 claimed_store
  ∧ claimed_store !! "p-1" = Some old
  ∧ old !! "isClaimed" = Some (VBool true)
  ∧ updateInsurancePolicy (mkIC "2vxsx-fae" 20) "p-1" sample_payload claimed_store
    = Some (Ok new, <["p-1" := new]> claimed_store)
  ∧ (<["p-1" := new]> claimed_store) !! "p-1" = Some new
  ∧ new !! "isClaimed" = Some (VBool false).
Proof.
  split_and!; try reflexivity. apply claimed_store_reachable.
Qed.

(** C1, as the code has it: on a store whose records sit under their own
    id, along any sequence of calls (payloads of the declared type, the id
    generator never handing out [id]) in which every
    [updateInsurancePolicy] is of another id, or has a payload whose
    [isClaimed] is true, or has a payload that lacks a required field,
    whatever is stored under [id] stays claimed once it is claimed.  And an
    [updateInsurancePolicy] of [id] that then succeeds stores under [id]
    the record it returns, with the [isClaimed] of its payload: with a
    payload whose [isClaimed] is false, a claimed policy is stored as
    unclaimed. *)
Theorem isClaimed_kept_unless_reset identical tr (s s' : Storage) id :
  keyed s →
  Forall (λ hc : Host * Call,
            typed_call hc.2 ∧ host_uuid hc.1 ≠ id ∧ spares_claim id hc.2) tr →
  run identical tr s = Some s' →
  ((∀ policy, s !! id = Some policy → isClaimed policy = true) →
   (∀ policy', s' !! id = Some policy' → isClaimed policy' = true))
  ∧ (∀ ic payload (new : obj) (s2 : Storage),
       payload_typed payload →
       updateInsurancePolicy ic id payload s' = Some (Ok new, s2) →
       s2 !! id = Some new
       ∧ is_Some (payload !! "isClaimed")
       ∧ new !! "isClaimed" = payload !! "isClaimed").
Proof.
  intros Hkeyed Hall Hrun. split.
  - by eapply run_keeps_claimed.
  - intros ic payload new s2 Hty Hup.
    eapply update_stores_payload_flag; [|done|done].
    by eapply run_keyed.
Qed.

Lemma isClaimed_kept_unless_reset_witness :
  let old := created 10 "p-1" claimed_payload in
  let tr := [(sample_host "2vxsx-fae" 20 "p-2", CreateInsurancePolicy sample_payload);
             (sample_host "2vxsx-fae" 30 "p-3", UpdateInsurancePolicy "p-2" sample_payload);
             (sample_host "2vxsx-fae" 40 "p-4", UpdateInsurancePolicy "p-1" claimed_payload);
             (sample_host "2vxsx-fae" 50 "p-5", FileClaim "p-1");
             (sample_host "2vxsx-fae" 60 "p-6", DeleteInsurancePolicy "p-2")] in
  let s' := <["p-1" := <["updatedAt" := VOpt (Some 40)]>
                         (spread old claimed_payload)]> claimed_store in
  (keyed claimed_store ∧ run never_identical tr claimed_store = Some s'
   ∧ ∀ policy, claimed_store !! "p-1" = Some policy → isClaimed policy = true)
  ∧ ∀ policy', s' !! "p-1" = Some policy' → isClaimed policy' = true.
Proof.
  intros old tr s'.
  assert (keyed claimed_store) as Hkeyed.
  { intros k p H. unfold claimed_store in H.
    apply lookup_insert_Some in H as [[<- <-]|[_ H]]; [reflexivity|].
    by rewrite lookup_empty in H. }
  assert (run never_identical tr claimed_store = Some s') as Hrun
    by reflexivity.
  assert (∀ policy, claimed_store !! "p-1" = Some policy →
                    isClaimed policy = true) as Hs.
  { intros policy [= <-]. reflexivity. }
  split; [by split_and!|].
  refine (proj1 (isClaimed_kept_unless_reset never_identical tr
                   claimed_store s' "p-1" Hkeyed _ Hrun) Hs).
  apply Forall_cons; split.
  { split_and!; [apply sample_payload_typed | done | exact I]. }
  apply Forall_cons; split.
  { split_and!; [apply sample_payload_typed | done | by left]. }
  apply Forall_cons; split.
  { split_and!; [apply claimed_payload_typed | done | right; left; reflexivity]. }
  apply Forall_cons; split.
  { split_and!; [exact I | done | exact I]. }
  apply Forall_cons; split.
  { split_and!; [exact I | done | exact I]. }
  by apply Forall_nil.
Defined.

(** ** Updating a policy *)

(** C4: on a store the registry gets to, at a time of call not before the
    last reading of the clock, and for an [id] that is present and a
    payload with the six fields and no other: [updateInsurancePolicy]
    succeeds, returns the record it stores and stores it under [id], every
    other entry being as it was; the record keeps the [id] and the
    [createdAt] it had, takes the six fields from the payload, and has as
    [updatedAt] the time of the call, which is not before the old
    [createdAt] nor before the old [updatedAt] when there was one. *)
Theorem updateInsurancePolicy_keeps_history identical last ic id
    (payload existingPolicy : obj) (s : Storage) :
  reachable identical last s → last ≤ time ic →
  s !! id = Some existingPolicy →
  payload_full payload → payload_typed payload →
  let updatedPolicy := <["updatedAt" := VOpt (Some (time ic))]>
                         (spread existingPolicy payload) in
  let s' := <[id := updatedPolicy]> s in
  updateInsurancePolicy ic id payload s = Some (Ok updatedPolicy, s')
  ∧ s' !! id = Some updatedPolicy
  ∧ dom s' = dom s
  ∧ (∀ k, k ≠ id → s' !! k = s !! k)
  ∧ updatedPolicy !! "id" = Some (VString id)
  ∧ updatedPolicy !! "id" = existingPolicy !! "id"
  ∧ updatedPolicy !! "createdAt" = existingPolicy !! "createdAt"
  ∧ updatedPolicy !! "updatedAt" = Some (VOpt (Some (time ic)))
  ∧ (∀ f, f ∈ requiredFields → updatedPolicy !! f = payload !! f)
  ∧ (∃ c, existingPolicy !! "createdAt" = Some (VNat64 c) ∧ c ≤ time ic)
  ∧ (∃ u, existingPolicy !! "updatedAt" = Some (VOpt u)
          ∧ ∀ t, u = Some t → t ≤ time ic).
Proof.
  intros Hreach Hle Hs Hfull Htyped updated s'.
  pose proof (reachable_store_ok _ _ _ Hreach) as Hok.
  destruct (Hok _ _ Hs) as (Hne & Hid & (c & Hc & Hcl) & (u & Hu & Hul)).
  destruct (updateInsurancePolicy_runs ic id payload existingPolicy s
              Hne Hs Hid Hfull Htyped) as (Hrun & Hid' & Hcreated & Hupdated).
  split_and!; try done.
  - apply lookup_insert_eq.
  - unfold s'. rewrite dom_insert_L.
    assert (id ∈ dom s) as Hin by (apply elem_of_dom; eauto).
    apply set_eq. intros k. rewrite elem_of_union, elem_of_singleton.
    split; [intros [->|Hk]; done | by right].
  - intros k Hk. unfold s'. by rewrite lookup_insert_ne.
  - by rewrite Hid.
  - intros f Hf. unfold updated.
    assert (f ≠ "updatedAt") as Hfu.
    { intros ->. by apply updatedAt_not_required. }
    rewrite lookup_insert_ne by done.
    assert (f ∈ dom payload) as Hd.
    { apply Hfull. by apply elem_of_list_to_set. }
    apply elem_of_dom in Hd as [v Hv]. rewrite Hv.
    by apply spread_lookup_new.
  - exists c. split; [done | lia].
  - exists u. split; [done|]. intros t Ht. specialize (Hul t Ht). lia.
Qed.

Lemma updateInsurancePolicy_keeps_history_witness :
  let old := created 10 "p-1" sample_payload in
  let new := <["updatedAt" := VOpt (Some 25)]> (spread old claimed_payload) in
  (reachable never_identical 10 sample_store ∧ 10 ≤ 25
   ∧ sample_store !! "p-1" = Some old
   ∧ payload_full claimed_payload ∧ payload_typed claimed_payload)
  ∧ updateInsurancePolicy (mkIC "2vxsx-fae" 25) "p-1" claimed_payload sample_store
    = Some (Ok new, <["p-1" := new]> sample_store)
  ∧ new !! "id" = old !! "id"
  ∧ new !! "createdAt" = old !! "createdAt"
  ∧ new !! "updatedAt" = Some (VOpt (Some 25)).
Proof.
  intros old new.
  assert (10 ≤ 25) as Hle by lia.
  assert (sample_store !! "p-1" = Some old) as Hs by reflexivity.
  assert (payload_full claimed_payload) as Hfull.
  { apply (bool_decide_unpack _). vm_compute. exact I. }
  split.
  { split_and!; [apply sample_store_reachable | exact Hle | exact Hs
                 | exact Hfull | apply claimed_payload_typed]. }
  destruct (updateInsurancePolicy_keeps_history never_identical 10
              (mkIC "2vxsx-fae" 25) "p-1" claimed_payload old sample_store
              sample_store_reachable Hle Hs Hfull claimed_payload_typed)
    as (H1 & _ & _ & _ & _ & H2 & H3 & H4 & _).
  split_and!; [exact H1 | exact H2 | exact H3 | exact H4].
Defined.

(** ** Creating a policy and reading it back *)

(** C5: for a payload with the six fields and no other, a generated id
    that is not empty and not in use, [createInsurancePolicy] succeeds; the
    record it returns has the generated [id], [createdAt] the time of the
    call, [updatedAt] [Opt.None] and the six fields of the payload; the
    store gains that one entry and keeps every other; and
    [getInsurancePolicy] on the returned id then gives that very record. *)
Theorem createInsurancePolicy_then_get ic u (payload : obj) (s : Storage) :
  payload_full payload → payload_typed payload → u ≠ "" → s !! u = None →
  let policy := created (time ic) u payload in
  let s' := <[u := policy]> s in
  createInsurancePolicy ic u payload s = Some (Ok policy, s')
  ∧ policy !! "id" = Some (VString u)
  ∧ policy !! "createdAt" = Some (VNat64 (time ic))
  ∧ policy !! "updatedAt" = Some (VOpt None)
  ∧ (∀ f, f ∈ requiredFields → policy !! f = payload !! f)
  ∧ size s' = S (size s)
  ∧ dom s' = {[u]} ∪ dom s
  ∧ (∀ k, k ≠ u → s' !! k = s !! k)
  ∧ getInsurancePolicy u s' = Ok policy.
Proof.
  intros Hfull Htyped Hne Hfresh policy s'.
  destruct (createInsurancePolicy_runs ic u payload s Hfull Htyped)
    as (Hrun & Hid & Hcreated & Hupdated).
  split_and!; try done.
  - intros f Hf.
    assert (f ∈ dom payload) as Hd.
    { apply Hfull. by apply elem_of_list_to_set. }
    apply elem_of_dom in Hd as [v Hv]. rewrite Hv.
    by apply spread_lookup_new.
  - by apply map_size_insert_None.
  - apply dom_insert_L.
  - intros k Hk. unfold s'. by rewrite lookup_insert_ne.
  - unfold getInsurancePolicy. rewrite invalid_id_nonempty by done.
    unfold s'. by rewrite lookup_insert_eq.
Qed.

Lemma createInsurancePolicy_then_get_witness :
  let policy := created 10 "p-1" sample_payload in
  (payload_full sample_payload ∧ payload_typed sample_payload ∧ "p-1" ≠ ""
   ∧ (∅ : Storage) !! "p-1" = None)
  ∧ createInsurancePolicy (mkIC "2vxsx-fae" 10) "p-1" sample_payload ∅
    = Some (Ok policy, sample_store)
  ∧ policy !! "updatedAt" = Some (VOpt None)
  ∧ size sample_store = 1%nat
  ∧ getInsurancePolicy "p-1" sample_store = Ok policy.
Proof.
  intros policy.
  assert ("p-1" ≠ "") as Hne by discriminate.
  assert ((∅ : Storage) !! "p-1" = None) as Hfresh by reflexivity.
  split.
  { split_and!; [apply sample_payload_full | apply sample_payload_typed
                 | exact Hne | exact Hfresh]. }
  destruct (createInsurancePolicy_then_get (mkIC "2vxsx-fae" 10) "p-1"
              sample_payload ∅ sample_payload_full sample_payload_typed
              Hne Hfresh)
    as (H1 & _ & _ & H2 & _ & H3 & _ & _ & H4).
  split_and!; [exact H1 | exact H2 | exact H3 | exact H4].
Defined.

(** ** Failures *)

Lemma invalid_id_msg_not_not_found id : invalid_id_msg ≠ not_found_msg id.
Proof. discriminate. Qed.

Lemma invalid_id_msg_not_missing_field f : invalid_id_msg ≠ missing_field_msg f.
Proof. discriminate. Qed.

Lemma invoke_failed_unchanged identical h c (s s' : Storage) r :
  invoke identical h c s = Some (r, s') → failed r = true → s' = s.
Proof.
  intros H Hf.
  destruct c as [payload|k| |k payload|k|k]; simpl in H.
  - destruct (createInsurancePolicy _ _ payload s) as [[r0 s0]|] eqn:Hcall;
      simpl in H; [|discriminate]. injection H as <- <-.
    apply createInsurancePolicy_cases in Hcall
      as [(f & _ & _ & ->)|(j & policy & _ & _ & _ & -> & _)];
      [done | discriminate].
  - by injection H as <- <-.
  - by injection H as <- <-.
  - destruct (updateInsurancePolicy _ k payload s) as [[r0 s0]|] eqn:Hcall;
      simpl in H; [|discriminate]. injection H as <- <-.
    apply updateInsurancePolicy_cases in Hcall
      as [(msg & _ & -> & _)|(j & old & new & _ & _ & _ & _ & _ & -> & _)];
      [done | discriminate].
  - destruct (deleteInsurancePolicy k s) as [[r0 s0]|] eqn:Hcall;
      simpl in H; [|discriminate]. injection H as <- <-.
    apply deleteInsurancePolicy_cases in Hcall
      as [(msg & _ & -> & _)|(old & _ & _ & -> & _)]; [done | discriminate].
  - destruct (fileClaim _ k s) as [[r0 s0]|] eqn:Hcall;
      simpl in H; [|discriminate]. injection H as <- <-.
    apply fileClaim_cases in Hcall
      as [(msg & _ & -> & _)|(j & old & new & _ & _ & _ & _ & _ & -> & _)];
      [done | discriminate].
Qed.

(** C6, against the code: the empty id is in no store, and
    [getInsurancePolicy] answers it with "Invalid ID format.", a
    validation failure and not a not-found one. *)
Lemma empty_id_is_not_NotFound :
  (∅ : Storage) !! "" = None
  ∧ getInsurancePolicy "" ∅ = Err invalid_id_msg
  ∧ failure_of "" Validation invalid_id_msg
  ∧ ¬ failure_of "" NotFound invalid_id_msg.
Proof.
  split_and!; [reflexivity | reflexivity | by left |].
  apply invalid_id_msg_not_not_found.
Qed.

(** C6, as the code has it: for an [id] that is not in the store, when
    [id] is not empty [getInsurancePolicy], [deleteInsurancePolicy] and
    [fileClaim] give the not-found failure, and so does
    [updateInsurancePolicy] when its payload has the six fields, while a
    payload that lacks one gets the missing-field failure instead; when
    [id] is empty all four give "Invalid ID format.". In each case the
    store is left as it was, and so it is by every call of any of the six
    methods that fails. *)
Theorem absent_id_outcomes identical id (s : Storage) :
  s !! id = None →
  (id ≠ "" →
     getInsurancePolicy id s = Err (not_found_msg id)
     ∧ deleteInsurancePolicy id s = Some (Err (not_found_msg id), s)
     ∧ (∀ ic, fileClaim ic id s = Some (Err (not_found_msg id), s))
     ∧ (∀ ic payload, payload_full payload →
          updateInsurancePolicy ic id payload s
          = Some (Err (not_found_msg id), s))
     ∧ (∀ ic payload f, missing_field requiredFields payload = Some f →
          updateInsurancePolicy ic id payload s
          = Some (Err (missing_field_msg f), s)))
  ∧ (id = "" →
     getInsurancePolicy id s = Err invalid_id_msg
     ∧ deleteInsurancePolicy id s = Some (Err invalid_id_msg, s)
     ∧ (∀ ic, fileClaim ic id s = Some (Err invalid_id_msg, s))
     ∧ (∀ ic payload,
          updateInsurancePolicy ic id payload s = Some (Err invalid_id_msg, s)))
  ∧ (∀ h c r (s' : Storage),
       invoke identical h c s = Some (r, s') → failed r = true → s' = s).
Proof.
  intros Hs. split_and!.
  - intros Hne.
    unfold getInsurancePolicy, deleteInsurancePolicy, fileClaim,
      updateInsurancePolicy.
    rewrite invalid_id_nonempty, Hs by done. split_and!; try done.
    + intros ic payload Hfull. apply payload_full_check in Hfull.
      by rewrite invalid_payload_false, Hfull.
    + intros ic payload f Hf. by rewrite invalid_payload_false, Hf.
  - intros ->. by split_and!.
  - intros h c r s' H Hf. by eapply invoke_failed_unchanged.
Qed.

Lemma absent_id_outcomes_witness :
  sample_store !! "p-9" = None
  ∧ getInsurancePolicy "p-9" sample_store = Err (not_found_msg "p-9")
  ∧ deleteInsurancePolicy "p-9" sample_store
    = Some (Err (not_found_msg "p-9"), sample_store).
Proof.
  assert (sample_store !! "p-9" = None) as Hs by reflexivity.
  assert ("p-9" ≠ "") as Hne by discriminate.
  split; [exact Hs|].
  destruct (proj1 (absent_id_outcomes never_identical "p-9" sample_store Hs) Hne)
    as (H1 & H2 & _).
  split; [exact H1 | exact H2].
Defined.

(** ** Payloads that lack a field *)

(** C7, against the code: with the empty id, [updateInsurancePolicy]
    answers a payload that lacks [premiumAmount] and [isClaimed] with
    "Invalid ID format.", which names no field. *)
Lemma empty_id_hides_missing_field :
  "premiumAmount" ∈ requiredFields
  ∧ partial_payload !! "premiumAmount" = None
  ∧ updateInsurancePolicy (mkIC "2vxsx-fae" 20) "" partial_payload sample_store
    = Some (Err invalid_id_msg, sample_store)
  ∧ ∀ f, invalid_id_msg ≠ missing_field_msg f.
Proof.
  split_and!; [|reflexivity|reflexivity|apply invalid_id_msg_not_missing_field].
  apply (bool_decide_unpack _). reflexivity.
Qed.

(** C7, as the code has it: a payload that lacks a required field is
    refused by [createInsurancePolicy], and by [updateInsurancePolicy]
    when the id is not empty, with "Missing required field: g." where [g]
    is a required field the payload lacks (the first in the order of the
    list); with the empty id [updateInsurancePolicy] refuses it with
    "Invalid ID format.". The store is left as it was in each case. *)
Theorem missing_field_rejected ic u id (payload : obj) (s : Storage) f :
  f ∈ requiredFields → payload !! f = None →
  ∃ g, g ∈ requiredFields ∧ payload !! g = None
       ∧ missing_field requiredFields payload = Some g
       ∧ failure_of id Validation (missing_field_msg g)
       ∧ createInsurancePolicy ic u payload s
         = Some (Err (missing_field_msg g), s)
       ∧ (id ≠ "" → updateInsurancePolicy ic id payload s
                    = Some (Err (missing_field_msg g), s))
       ∧ (id = "" → updateInsurancePolicy ic id payload s
                    = Some (Err invalid_id_msg, s)).
Proof.
  intros Hf Hp.
  destruct (missing_field requiredFields payload) as [g|] eqn:Hm.
  - destruct (missing_field_Some _ _ _ Hm) as [Hg Hpg].
    exists g. split_and!; try done.
    + do 4 right. by exists g.
    + unfold createInsurancePolicy. by rewrite invalid_payload_false, Hm.
    + intros Hne. unfold updateInsurancePolicy.
      by rewrite invalid_id_nonempty, invalid_payload_false, Hm.
    + by intros ->.
  - exfalso. assert (f ∈ dom payload) as Hd by by eapply missing_field_None.
    apply elem_of_dom in Hd as [v Hv]. congruence.
Qed.

Lemma missing_field_rejected_witness :
  ("isClaimed" ∈ requiredFields ∧ partial_payload !! "isClaimed" = None)
  ∧ ∃ g, createInsurancePolicy (mkIC "2vxsx-fae" 20) "p-2" partial_payload
           sample_store = Some (Err (missing_field_msg g), sample_store)
         ∧ updateInsurancePolicy (mkIC "2vxsx-fae" 20) "p-1" partial_payload
             sample_store = Some (Err (missing_field_msg g), sample_store).
Proof.
  assert ("isClaimed" ∈ requiredFields) as Hf.
  { apply (bool_decide_unpack _). reflexivity. }
  assert (partial_payload !! "isClaimed" = None) as Hp by reflexivity.
  assert ("p-1" ≠ "") as Hne by discriminate.
  split; [by split|].
  destruct (missing_field_rejected (mkIC "2vxsx-fae" 20) "p-2" "p-1"
              partial_payload sample_store "isClaimed" Hf Hp)
    as (g & _ & _ & _ & _ & H1 & H2 & _).
  exists g. split; [exact H1 | exact (H2 Hne)].
Defined.

(** ** Deleting a policy *)

(** C8: on a store the registry gets to, for an [id] that is present,
    [deleteInsurancePolicy] returns the stored record as it is and leaves
    the store without that entry and with every other; and
    [getInsurancePolicy] on the same id then gives the not-found failure. *)
Theorem deleteInsurancePolicy_then_get identical last id (policy : obj)
    (s : Storage) :
  reachable identical last s → s !! id = Some policy →
  deleteInsurancePolicy id s = Some (Ok policy, delete id s)
  ∧ delete id s !! id = None
  ∧ (∀ k, k ≠ id → delete id s !! k = s !! k)
  ∧ getInsurancePolicy id (delete id s) = Err (not_found_msg id)
  ∧ failure_of id NotFound (not_found_msg id).
Proof.
  intros Hreach Hs.
  destruct (reachable_store_ok _ _ _ Hreach _ _ Hs) as (Hne & _).
  split_and!.
  - unfold deleteInsurancePolicy. by rewrite invalid_id_nonempty, Hs.
  - apply lookup_delete_eq.
  - intros k Hk. by apply lookup_delete_ne.
  - unfold getInsurancePolicy.
    by rewrite invalid_id_nonempty, lookup_delete_eq.
  - done.
Qed.

Lemma deleteInsurancePolicy_then_get_witness :
  let policy := created 10 "p-1" sample_payload in
  (reachable never_identical 10 sample_store
   ∧ sample_store !! "p-1" = Some policy)
  ∧ deleteInsurancePolicy "p-1" sample_store
    = Some (Ok policy, delete "p-1" sample_store)
  ∧ getInsurancePolicy "p-1" (delete "p-1" sample_store)
    = Err (not_found_msg "p-1").
Proof.
  intros policy.
  assert (sample_store !! "p-1" = Some policy) as Hs by reflexivity.
  split; [split; [apply sample_store_reachable | exact Hs]|].
  destruct (deleteInsurancePolicy_then_get never_identical 10 "p-1" policy
              sample_store sample_store_reachable Hs) as (H1 & _ & _ & H2 & _).
  split; [exact H1 | exact H2].
Defined.

(** ** The caller *)



(** * Further properties of the methods *)

(** ** The check of the required fields *)

Lemma missing_field_first fields (payload : obj) g :
  missing_field fields payload = Some g →
  ∃ before after,
    fields = before ++ g :: after
    ∧ (∀ f, f ∈ before → is_Some (payload !! f))
    ∧ payload !! g = None.
Proof.
  induction fields as [|f rest IH]; simpl; [discriminate|].
  unfold has_field at 1. destruct (payload !! f) eqn:Hf; simpl.
  - intros H. destruct (IH H) as (before & after & -> & Hb & Hg).
    exists (f :: before), after. split_and!; [done| |done].
    intros f' Hin. apply elem_of_cons in Hin as [->|Hin]; [by eexists | auto].
  - intros [= <-]. exists [], rest. split_and!; [done| |done].
    intros f' Hin. inversion Hin.
Qed.

Lemma string_length_app (a b : string) :
  String.length (a +:+ b) = (String.length a + String.length b)%nat.
Proof.
  induction a as [|c a IH]; [done|].
  change (String c a +:+ b) with (String c (a +:+ b)). simpl. by rewrite IH.
Qed.

Lemma string_app_inj_r (a b suffix : string) :
  a +:+ suffix = b +:+ suffix → a = b.
Proof.
  revert b. induction a as [|c a IH]; intros [|d b] H.
  - done.
  - apply (f_equal String.length) in H.
    rewrite !string_length_app in H. simpl in H. lia.
  - apply (f_equal String.length) in H.
    rewrite !string_length_app in H. simpl in H. lia.
  - change (String c (a +:+ suffix) = String d (b +:+ suffix)) in H.
    injection H as -> H. f_equal. by apply IH.
Qed.

Lemma missing_field_msg_inj f g :
  missing_field_msg f = missing_field_msg g → f = g.
Proof.
  unfold missing_field_msg. intros H.
  apply (inj (String.app _)) in H. by apply string_app_inj_r in H.
Qed.

Lemma not_found_msg_inj id id' : not_found_msg id = not_found_msg id' → id = id'.
Proof.
  unfold not_found_msg. intros H.
  apply (inj (String.app _)) in H. by apply string_app_inj_r in H.
Qed.

Lemma already_filed_msg_inj id id' :
  already_filed_msg id = already_filed_msg id' → id = id'.
Proof.
  unfold already_filed_msg. intros H.
  apply (inj (String.app _)) in H. by apply string_app_inj_r in H.
Qed.

(** X1: the field that the missing-field failure of
    [createInsurancePolicy] and [updateInsurancePolicy] names is the first
    one, in the order of the list of required fields, that the payload
    lacks: every required field listed before it is in the payload. *)
Theorem missing_field_names_first ic u id (payload : obj) (s : Storage) g :
  createInsurancePolicy ic u payload s = Some (Err (missing_field_msg g), s)
  ∨ updateInsurancePolicy ic id payload s = Some (Err (missing_field_msg g), s) →
  ∃ before after,
    requiredFields = before ++ g :: after
    ∧ (∀ f, f ∈ before → is_Some (payload !! f))
    ∧ payload !! g = None.
Proof.
  intros H.
  assert (missing_field requiredFields payload = Some g) as Hm.
  { destruct H as [H|H].
    - apply createInsurancePolicy_cases in H
        as [(f & Hm & Hf & _)|(k & p & _ & _ & _ & Hf & _)]; [|discriminate].
      assert (missing_field_msg g = missing_field_msg f) as Hfg by congruence.
      by apply missing_field_msg_inj in Hfg as ->.
    - apply updateInsurancePolicy_cases in H
        as [(msg & Hmsg & _ & Hwhy)
           |(k & old & new & _ & _ & _ & _ & _ & Hf & _)]; [|discriminate].
      assert (msg = missing_field_msg g) as -> by congruence.
      destruct Hwhy as [[_ Hbad]|[(_ & f & Hm & Hfg)|(_ & _ & _ & Hbad)]].
      + discriminate.
      + by apply missing_field_msg_inj in Hfg as ->.
      + discriminate. }
  by apply missing_field_first.
Qed.

Lemma missing_field_names_first_witness :
  createInsurancePolicy (mkIC "2vxsx-fae" 20) "p-2" partial_payload sample_store
    = Some (Err (missing_field_msg "premiumAmount"), sample_store)
  ∧ ∃ before after,
      requiredFields = before ++ "premiumAmount" :: after
      ∧ (∀ f, f ∈ before → is_Some (partial_payload !! f))
      ∧ partial_payload !! "premiumAmount" = None.
Proof.
  assert (createInsurancePolicy (mkIC "2vxsx-fae" 20) "p-2" partial_payload
            sample_store
          = Some (Err (missing_field_msg "premiumAmount"), sample_store))
    as Hc by reflexivity.
  split; [exact Hc|].
  exact (missing_field_names_first (mkIC "2vxsx-fae" 20) "p-2" "p-1"
           partial_payload sample_store "premiumAmount" (or_introl Hc)).
Defined.

(** ** An id that is in use *)

(** X2: when the id generator hands out an id that is in use,
    [createInsurancePolicy] still succeeds: the new record takes the place
    of the stored one, the store keeps its size and every other entry, and
    the record that was there is gone. *)
Theorem createInsurancePolicy_replaces_on_collision ic u
    (payload old : obj) (s : Storage) :
  payload_full payload → payload_typed payload → s !! u = Some old →
  let policy := created (time ic) u payload in
  let s' := <[u := policy]> s in
  createInsurancePolicy ic u payload s = Some (Ok policy, s')
  ∧ s' !! u = Some policy
  ∧ size s' = size s
  ∧ dom s' = dom s
  ∧ (∀ k, k ≠ u → s' !! k = s !! k).
Proof.
  intros Hfull Htyped Hold policy s'.
  destruct (createInsurancePolicy_runs ic u payload s Hfull Htyped)
    as (Hrun & _).
  assert (dom s' = dom s) as Hdom.
  { unfold s'. rewrite dom_insert_L.
    assert (u ∈ dom s) as Hin by (apply elem_of_dom; eauto).
    apply set_eq. intros k. rewrite elem_of_union, elem_of_singleton.
    split; [intros [->|Hk]; done | by right]. }
  split_and!; try done.
  - apply lookup_insert_eq.
  - by rewrite <- !size_dom, Hdom.
  - intros k Hk. unfold s'. by rewrite lookup_insert_ne.
Qed.

Lemma createInsurancePolicy_replaces_on_collision_witness :
  let policy := created 30 "p-1" claimed_payload in
  (payload_full claimed_payload ∧ payload_typed claimed_payload
   ∧ sample_store !! "p-1" = Some (created 10 "p-1" sample_payload))
  ∧ createInsurancePolicy (mkIC "2vxsx-fae" 30) "p-1" claimed_payload sample_store
    = Some (Ok policy, <["p-1" := policy]> sample_store)
  ∧ size (<["p-1" := policy]> sample_store) = size sample_store.
Proof.
  intros policy.
  assert (payload_full claimed_payload) as Hfull.
  { apply (bool_decide_unpack _). vm_compute. exact I. }
  assert (sample_store !! "p-1" = Some (created 10 "p-1" sample_payload))
    as Hs by reflexivity.
  split; [split_and!; [exact Hfull | apply claimed_payload_typed | exact Hs]|].
  destruct (createInsurancePolicy_replaces_on_collision (mkIC "2vxsx-fae" 30)
              "p-1" claimed_payload _ sample_store Hfull claimed_payload_typed Hs)
    as (H1 & _ & H2 & _).
  split; [exact H1 | exact H2].
Defined.

(** ** How calls compose *)

(** X3: creating a policy under an id that is not in use and deleting it
    again gives back the very store there was before, and the delete
    returns the record the create returned. *)
Theorem create_then_delete_restores ic u (payload : obj) (s : Storage) :
  payload_full payload → payload_typed payload → u ≠ "" → s !! u = None →
  ∃ (policy : obj) (s1 : Storage),
    createInsurancePolicy ic u payload s = Some (Ok policy, s1)
    ∧ deleteInsurancePolicy u s1 = Some (Ok policy, s).
Proof.
  intros Hfull Htyped Hne Hfresh.
  destruct (createInsurancePolicy_runs ic u payload s Hfull Htyped)
    as (Hrun & _).
  eexists _, _. split; [exact Hrun|].
  unfold deleteInsurancePolicy.
  rewrite invalid_id_nonempty, lookup_insert_eq by done.
  by rewrite delete_insert_id.
Qed.

Lemma create_then_delete_restores_witness :
  (payload_full sample_payload ∧ payload_typed sample_payload ∧ "p-2" ≠ ""
   ∧ sample_store !! "p-2" = None)
  ∧ ∃ (policy : obj) (s1 : Storage),
      createInsurancePolicy (mkIC "2vxsx-fae" 20) "p-2" sample_payload sample_store
      = Some (Ok policy, s1)
      ∧ deleteInsurancePolicy "p-2" s1 = Some (Ok policy, sample_store).
Proof.
  assert ("p-2" ≠ "") as Hne by discriminate.
  assert (sample_store !! "p-2" = None) as Hfresh by reflexivity.
  split.
  { split_and!; [apply sample_payload_full | apply sample_payload_typed
                 | exact Hne | exact Hfresh]. }
  exact (create_then_delete_restores (mkIC "2vxsx-fae" 20) "p-2" sample_payload
           sample_store sample_payload_full sample_payload_typed Hne Hfresh).
Defined.

(** X4: the last update wins.  After an [updateInsurancePolicy] of a
    policy, a second one on the same id gives the result and the store it
    would have given without the first: nothing of the first payload nor
    of the time of the first call is left. *)
Theorem last_update_wins ic1 ic2 id (p1 p2 existingPolicy : obj) (s : Storage) :
  id ≠ "" → s !! id = Some existingPolicy →
  existingPolicy !! "id" = Some (VString id) →
  payload_full p1 → payload_typed p1 → payload_full p2 → payload_typed p2 →
  ∃ (n1 : obj) (s1 : Storage),
    updateInsurancePolicy ic1 id p1 s = Some (Ok n1, s1)
    ∧ updateInsurancePolicy ic2 id p2 s1 = updateInsurancePolicy ic2 id p2 s.
Proof.
  intros Hne Hs Hid Hf1 Ht1 Hf2 Ht2.
  destruct (updateInsurancePolicy_runs ic1 id p1 existingPolicy s
              Hne Hs Hid Hf1 Ht1) as (Hrun1 & Hid1 & _).
  eexists _, _. split; [exact Hrun1|].
  set (n1 := <["updatedAt" := VOpt (Some (time ic1))]> (spread existingPolicy p1))
    in Hid1 |- *.
  destruct (updateInsurancePolicy_runs ic2 id p2 n1 (<[id := n1]> s)
              Hne (lookup_insert_eq _ _ _) Hid1 Hf2 Ht2) as (Hrun2 & _).
  destruct (updateInsurancePolicy_runs ic2 id p2 existingPolicy s
              Hne Hs Hid Hf2 Ht2) as (Hrun & _).
  rewrite Hrun2, Hrun, insert_insert_eq.
  assert (<["updatedAt" := VOpt (Some (time ic2))]> (spread n1 p2)
          = <["updatedAt" := VOpt (Some (time ic2))]> (spread existingPolicy p2))
    as Hsame; [|by rewrite Hsame].
  apply map_eq. intros f.
  destruct (decide (f = "updatedAt")) as [->|Hu].
  { by rewrite !lookup_insert_eq. }
  rewrite !lookup_insert_ne by done. unfold spread.
  destruct (p2 !! f) as [v|] eqn:Hv.
  - by rewrite !(lookup_union_Some_l _ _ _ _ Hv).
  - rewrite !lookup_union_r by done.
    unfold n1. rewrite lookup_insert_ne by done.
    apply lookup_union_r. apply not_elem_of_dom. intros Hin.
    apply not_elem_of_dom in Hv. apply Hv. apply Hf2, Ht1, Hin.
Qed.

Lemma last_update_wins_witness :
  let old := created 10 "p-1" sample_payload in
  ("p-1" ≠ "" ∧ sample_store !! "p-1" = Some old
   ∧ old !! "id" = Some (VString "p-1")
   ∧ payload_full claimed_payload ∧ payload_typed claimed_payload
   ∧ payload_full sample_payload ∧ payload_typed sample_payload)
  ∧ ∃ (n1 : obj) (s1 : Storage),
      updateInsurancePolicy (mkIC "2vxsx-fae" 20) "p-1" claimed_payload sample_store
      = Some (Ok n1, s1)
      ∧ updateInsurancePolicy (mkIC "2vxsx-fae" 30) "p-1" sample_payload s1
        = updateInsurancePolicy (mkIC "2vxsx-fae" 30) "p-1" sample_payload
            sample_store.
Proof.
  intros old.
  assert ("p-1" ≠ "") as Hne by discriminate.
  assert (sample_store !! "p-1" = Some old) as Hs by reflexivity.
  assert (old !! "id" = Some (VString "p-1")) as Hid by reflexivity.
  assert (payload_full claimed_payload) as Hfull.
  { apply (bool_decide_unpack _). vm_compute. exact I. }
  split.
  { split_and!; [exact Hne | exact Hs | exact Hid | exact Hfull
                 | apply claimed_payload_typed | apply sample_payload_full
                 | apply sample_payload_typed]. }
  exact (last_update_wins (mkIC "2vxsx-fae" 20) (mkIC "2vxsx-fae" 30) "p-1"
           claimed_payload sample_payload old sample_store Hne Hs Hid Hfull
           claimed_payload_typed sample_payload_full sample_payload_typed).
Defined.

(** X5: a claim can be filed again after an update.  Whatever the claim
    flag of a stored policy, an [updateInsurancePolicy] whose payload has
    [isClaimed] false is followed by a [fileClaim] that succeeds and
    returns the policy with [isClaimed] true. *)
Theorem update_reopens_claim ic ic' id (payload policy : obj) (s : Storage) :
  id ≠ "" → s !! id = Some policy → policy !! "id" = Some (VString id) →
  payload_full payload → payload_typed payload →
  payload !! "isClaimed" = Some (VBool false) →
  ∃ (n1 n2 : obj) (s1 s2 : Storage),
    updateInsurancePolicy ic id payload s = Some (Ok n1, s1)
    ∧ fileClaim ic' id s1 = Some (Ok n2, s2)
    ∧ n2 !! "isClaimed" = Some (VBool true)
    ∧ s2 !! id = Some n2.
Proof.
  intros Hne Hs Hid Hfull Htyped Hflag.
  destruct (updateInsurancePolicy_runs ic id payload policy s
              Hne Hs Hid Hfull Htyped) as (Hrun1 & Hid1 & _).
  set (n1 := <["updatedAt" := VOpt (Some (time ic))]> (spread policy payload))
    in Hrun1, Hid1.
  assert (isClaimed n1 = false) as Hc.
  { unfold isClaimed, field, n1. rewrite lookup_insert_ne by done.
    by rewrite (spread_lookup_new _ _ _ _ Hflag). }
  destruct (fileClaim_runs ic' id n1 (<[id := n1]> s)
              Hne (lookup_insert_eq _ _ _) Hid1 Hc) as (Hrun2 & _).
  eexists _, _, _, _. split_and!; [exact Hrun1 | exact Hrun2 | |].
  - by rewrite lookup_insert_ne, lookup_insert_eq.
  - apply lookup_insert_eq.
Qed.

Lemma update_reopens_claim_witness :
  let old := created 10 "p-1" claimed_payload in
  ("p-1" ≠ "" ∧ claimed_store !! "p-1" = Some old
   ∧ old !! "id" = Some (VString "p-1") ∧ isClaimed old = true
   ∧ payload_full sample_payload ∧ payload_typed sample_payload
   ∧ sample_payload !! "isClaimed" = Some (VBool false))
  ∧ ∃ (n1 n2 : obj) (s1 s2 : Storage),
      updateInsurancePolicy (mkIC "2vxsx-fae" 20) "p-1" sample_payload claimed_store
      = Some (Ok n1, s1)
      ∧ fileClaim (mkIC "2vxsx-fae" 30) "p-1" s1 = Some (Ok n2, s2)
      ∧ n2 !! "isClaimed" = Some (VBool true)
      ∧ s2 !! "p-1" = Some n2.
Proof.
  intros old.
  assert ("p-1" ≠ "") as Hne by discriminate.
  assert (claimed_store !! "p-1" = Some old) as Hs by reflexivity.
  assert (old !! "id" = Some (VString "p-1")) as Hid by reflexivity.
  assert (isClaimed old = true) as Hc by reflexivity.
  assert (sample_payload !! "isClaimed" = Some (VBool false)) as Hflag
    by reflexivity.
  split.
  { split_and!; [exact Hne | exact Hs | exact Hid | exact Hc
                 | apply sample_payload_full | apply sample_payload_typed
                 | exact Hflag]. }
  exact (update_reopens_claim (mkIC "2vxsx-fae" 20) (mkIC "2vxsx-fae" 30) "p-1"
           sample_payload old claimed_store Hne Hs Hid sample_payload_full
           sample_payload_typed Hflag).
Defined.

(** ** Which ids a store holds *)

Lemma dom_insert_present k (v : obj) (s : Storage) :
  k ∈ dom s → dom (<[k := v]> s) = dom s.
Proof.
  intros Hin. rewrite dom_insert_L. apply set_eq. intros j.
  rewrite elem_of_union, elem_of_singleton.
  split; [intros [->|Hj]; done | by right].
Qed.

Lemma typed_create_key ic u (payload policy : obj) k :
  payload_typed payload →
  policy = spread (<["id" := VString u]>
                     (<["createdAt" := VNat64 (time ic)]>
                        (<["updatedAt" := VOpt None]> ∅))) payload →
  policy !! "id" = Some (VString k) → k = u.
Proof.
  intros Hty -> Hid. rewrite spread_lookup_old in Hid.
  - rewrite lookup_insert_eq in Hid. congruence.
  - apply payload_typed_lookup; [done | apply id_not_required].
Qed.

Lemma typed_update_key ic id (payload old new : obj) k (s : Storage) :
  keyed s → payload_typed payload → s !! id = Some old →
  new = <["updatedAt" := VOpt (Some (time ic))]> (spread old payload) →
  new !! "id" = Some (VString k) → k = id.
Proof.
  intros Hkeyed Hty Hold -> Hid.
  rewrite lookup_insert_ne in Hid by done.
  rewrite spread_lookup_old in Hid.
  - rewrite (Hkeyed _ _ Hold) in Hid. congruence.
  - apply payload_typed_lookup; [done | apply id_not_required].
Qed.

Lemma fileClaim_key ic id (old new : obj) k (s : Storage) :
  keyed s → s !! id = Some old →
  new = <["updatedAt" := VOpt (Some (time ic))]>
          (<["isClaimed" := VBool true]> old) →
  new !! "id" = Some (VString k) → k = id.
Proof.
  intros Hkeyed Hold -> Hid. rewrite !lookup_insert_ne in Hid by done.
  rewrite (Hkeyed _ _ Hold) in Hid. congruence.
Qed.

(** X6: what a call does to the set of stored ids, on a store whose
    records sit under their own id and with a payload of the declared
    type: a [createInsurancePolicy] that succeeds adds the generated id, a
    [deleteInsurancePolicy] that succeeds takes its id out, and every
    other call, and every call that fails, leaves the set as it is.  So
    [updateInsurancePolicy] and [fileClaim] never add nor drop a policy. *)
Theorem call_effect_on_ids identical h c (s s' : Storage) r :
  keyed s → typed_call c → invoke identical h c s = Some (r, s') →
  dom s' =
    match c with
    | CreateInsurancePolicy _ =>
        if failed r then dom s else {[host_uuid h]} ∪ dom s
    | DeleteInsurancePolicy id =>
        if failed r then dom s else dom s ∖ {[id]}
    | _ => dom s
    end.
Proof.
  intros Hkeyed Hty H.
  destruct c as [payload|k| |k payload|k|k]; simpl in H.
  - destruct (createInsurancePolicy _ _ payload s) as [[r0 s0]|] eqn:Hcall;
      simpl in H; [|discriminate]. injection H as <- <-.
    apply createInsurancePolicy_cases in Hcall
      as [(f & _ & -> & ->)|(j & policy & _ & Hp & Hid & -> & ->)]; [done|].
    simpl. rewrite dom_insert_L.
    by rewrite (typed_create_key _ _ _ _ _ Hty Hp Hid).
  - by injection H as <- <-.
  - by injection H as <- <-.
  - destruct (updateInsurancePolicy _ k payload s) as [[r0 s0]|] eqn:Hcall;
      simpl in H; [|discriminate]. injection H as <- <-.
    apply updateInsurancePolicy_cases in Hcall
      as [(msg & _ & -> & _)
         |(j & old & new & _ & _ & Hold & Hnew & Hid & _ & ->)]; [done|].
    rewrite (typed_update_key _ _ _ _ _ _ _ Hkeyed Hty Hold Hnew Hid).
    apply dom_insert_present, elem_of_dom. eauto.
  - destruct (deleteInsurancePolicy k s) as [[r0 s0]|] eqn:Hcall;
      simpl in H; [|discriminate]. injection H as <- <-.
    apply deleteInsurancePolicy_cases in Hcall
      as [(msg & -> & -> & _)|(old & _ & _ & -> & ->)]; [done|].
    simpl. apply dom_delete_L.
  - destruct (fileClaim _ k s) as [[r0 s0]|] eqn:Hcall;
      simpl in H; [|discriminate]. injection H as <- <-.
    apply fileClaim_cases in Hcall
      as [(msg & _ & -> & _)
         |(j & old & new & _ & Hold & _ & Hnew & Hid & _ & ->)]; [done|].
    rewrite (fileClaim_key _ _ _ _ _ _ Hkeyed Hold Hnew Hid).
    apply dom_insert_present, elem_of_dom. eauto.
Qed.

Lemma sample_store_keyed : keyed sample_store.
Proof.
  intros k p H. unfold sample_store in H.
  apply lookup_insert_Some in H as [[<- <-]|[_ H]]; [reflexivity|].
  by rewrite lookup_empty in H.
Qed.

Lemma call_effect_on_ids_witness :
  let h := sample_host "2vxsx-fae" 20 "p-2" in
  let new := <["updatedAt" := VOpt (Some 20)]>
               (<["isClaimed" := VBool true]> (created 10 "p-1" sample_payload)) in
  (keyed sample_store ∧ typed_call (FileClaim "p-1")
   ∧ invoke never_identical h (FileClaim "p-1") sample_store
     = Some (Policy (Ok new), <["p-1" := new]> sample_store))
  ∧ dom (<["p-1" := new]> sample_store) = dom sample_store.
Proof.
  intros h new.
  assert (invoke never_identical h (FileClaim "p-1") sample_store
          = Some (Policy (Ok new), <["p-1" := new]> sample_store)) as Hi
    by reflexivity.
  split; [split_and!; [apply sample_store_keyed | exact I | exact Hi]|].
  exact (call_effect_on_ids never_identical h (FileClaim "p-1") sample_store _ _
           sample_store_keyed I Hi).
Defined.

Lemma invoke_new_ids identical h c (s s' : Storage) r k :
  keyed s → typed_call c → invoke identical h c s = Some (r, s') →
  k ∈ dom s' → k ∈ dom s ∨ k ∈ generated_ids [(h, c)].
Proof.
  intros Hkeyed Hty H Hk.
  destruct c as [payload|j| |j payload|j|j]; simpl in H.
  - destruct (createInsurancePolicy _ _ payload s) as [[r0 s0]|] eqn:Hcall;
      simpl in H; [|discriminate]. injection H as <- <-.
    apply createInsurancePolicy_cases in Hcall
      as [(f & _ & _ & ->)|(i & policy & _ & Hp & Hid & _ & ->)]; [by left|].
    rewrite (typed_create_key _ _ _ _ _ Hty Hp Hid) in Hk.
    rewrite dom_insert_L in Hk.
    apply elem_of_union in Hk as [Hk|Hk]; [|by left].
    apply elem_of_singleton in Hk as ->. right. simpl. by left.
  - injection H as <- <-. by left.
  - injection H as <- <-. by left.
  - destruct (updateInsurancePolicy _ j payload s) as [[r0 s0]|] eqn:Hcall;
      simpl in H; [|discriminate]. injection H as <- <-.
    apply updateInsurancePolicy_cases in Hcall
      as [(msg & _ & -> & _)
         |(i & old & new & _ & _ & Hold & Hnew & Hid & _ & ->)]; [by left|].
    rewrite (typed_update_key _ _ _ _ _ _ _ Hkeyed Hty Hold Hnew Hid) in Hk.
    rewrite dom_insert_present in Hk by (apply elem_of_dom; eauto). by left.
  - destruct (deleteInsurancePolicy j s) as [[r0 s0]|] eqn:Hcall;
      simpl in H; [|discriminate]. injection H as <- <-.
    apply deleteInsurancePolicy_cases in Hcall
      as [(msg & _ & -> & _)|(old & _ & _ & _ & ->)]; [by left|].
    rewrite dom_delete_L in Hk. apply elem_of_difference in Hk as [Hk _].
    by left.
  - destruct (fileClaim _ j s) as [[r0 s0]|] eqn:Hcall;
      simpl in H; [|discriminate]. injection H as <- <-.
    apply fileClaim_cases in Hcall
      as [(msg & _ & -> & _)
         |(i & old & new & _ & Hold & _ & Hnew & Hid & _ & ->)]; [by left|].
    rewrite (fileClaim_key _ _ _ _ _ _ Hkeyed Hold Hnew Hid) in Hk.
    rewrite dom_insert_present in Hk by (apply elem_of_dom; eauto). by left.
Qed.

Lemma generated_ids_cons h c tr k :
  k ∈ generated_ids ((h, c) :: tr) ↔
  k ∈ generated_ids [(h, c)] ∨ k ∈ generated_ids tr.
Proof.
  destruct c; simpl; rewrite ?elem_of_cons, ?elem_of_nil; tauto.
Qed.

Lemma run_new_ids identical tr : ∀ (s s' : Storage) k,
  keyed s → Forall (λ hc : Host * Call, typed_call hc.2) tr →
  run identical tr s = Some s' →
  k ∈ dom s' → k ∈ dom s ∨ k ∈ generated_ids tr.
Proof.
  induction tr as [|[h c] rest IH]; intros s s' k Hkeyed Hty H Hk.
  - injection H as <-. by left.
  - apply Forall_cons in Hty as [Hc Hty]. simpl in H, Hc.
    destruct (invoke identical h c s) as [[r s1]|] eqn:Hi;
      simpl in H; [|discriminate].
    rewrite generated_ids_cons.
    destruct (IH s1 s' k (invoke_keyed _ _ _ _ _ _ Hkeyed Hi) Hty H Hk)
      as [Hk1|Hk1]; [|by right; right].
    destruct (invoke_new_ids _ _ _ _ _ _ _ Hkeyed Hc Hi Hk1); tauto.
Qed.

(** X7: along any sequence of calls from the empty store whose payloads
    have the declared type, every id in the store is one the id generator
    handed out to a [createInsurancePolicy] of the sequence: no stored id
    comes from a caller. *)
Theorem stored_ids_are_generated identical tr (s : Storage) k :
  Forall (λ hc : Host * Call, typed_call hc.2) tr →
  run identical tr ∅ = Some s →
  k ∈ dom s → k ∈ generated_ids tr.
Proof.
  intros Hty Hrun Hk.
  destruct (run_new_ids identical tr ∅ s k keyed_empty Hty Hrun Hk) as [H|H];
    [|done].
  by rewrite dom_empty_L in H.
Qed.

Lemma stored_ids_are_generated_witness :
  let tr := [(sample_host "2vxsx-fae" 10 "p-1", CreateInsurancePolicy sample_payload);
             (sample_host "2vxsx-fae" 20 "p-2", UpdateInsurancePolicy "p-1" claimed_payload)] in
  let s := <["p-1" := <["updatedAt" := VOpt (Some 20)]>
                        (spread (created 10 "p-1" sample_payload) claimed_payload)]>
             sample_store in
  (run never_identical tr ∅ = Some s ∧ "p-1" ∈ dom s)
  ∧ "p-1" ∈ generated_ids tr.
Proof.
  intros tr s.
  assert (run never_identical tr ∅ = Some s) as Hrun by reflexivity.
  assert ("p-1" ∈ dom s) as Hk.
  { apply elem_of_dom. eexists. apply lookup_insert_eq. }
  split; [by split|].
  refine (stored_ids_are_generated never_identical tr s "p-1" _ Hrun Hk).
  apply Forall_cons; split; [apply sample_payload_typed|].
  apply Forall_cons; split; [apply claimed_payload_typed|].
  by apply Forall_nil.
Defined.

(** ** Sequences of calls under the host's contract *)

Lemma run_app identical tr1 : ∀ tr2 (s : Storage),
  run identical (tr1 ++ tr2) s
  = s1 ← run identical tr1 s; run identical tr2 s1.
Proof.
  induction tr1 as [|[h c] rest IH]; intros tr2 s; simpl; [done|].
  destruct (invoke identical h c s) as [[r s1]|]; simpl; [apply IH | done].
Qed.

Lemma hosted_app tr1 : ∀ tr2 last,
  hosted last tr1 → hosted (clock_after last tr1) tr2 →
  hosted last (tr1 ++ tr2).
Proof.
  induction tr1 as [|[h c] rest IH]; intros tr2 last H1 H2; simpl in *;
    [done|].
  destruct H1 as (Hty & Hu & Hle & Hrest). split_and!; try done. by apply IH.
Qed.

Lemma clock_after_app tr1 : ∀ tr2 last,
  clock_after last (tr1 ++ tr2) = clock_after (clock_after last tr1) tr2.
Proof.
  induction tr1 as [|[h c] rest IH]; intros tr2 last; simpl; [done | apply IH].
Qed.

(** X8: no call faults under the host's contract.  From a store the
    registry gets to, any further sequence of calls with payloads of the
    declared type, non-empty generated ids and a clock that does not run
    backwards runs to its end, every call giving back a result, and ends
    in a store the registry gets to. *)
Theorem hosted_calls_never_fault identical last tr (s : Storage) :
  reachable identical last s → hosted last tr →
  ∃ s' : Storage,
    run identical tr s = Some s'
    ∧ reachable identical (clock_after last tr) s'.
Proof.
  intros Hreach Hhosted.
  pose proof (reachable_store_ok _ _ _ Hreach) as Hok.
  destruct (run_total identical tr s last Hok Hhosted) as [s' Hrun].
  exists s'. split; [done|].
  destruct Hreach as (tr0 & Hh0 & Hrun0 & <-).
  exists (tr0 ++ tr). split_and!.
  - by apply hosted_app.
  - by rewrite run_app, Hrun0.
  - apply clock_after_app.
Qed.

Lemma hosted_calls_never_fault_witness :
  let tr := [(sample_host "2vxsx-fae" 20 "p-2", FileClaim "p-1");
             (sample_host "2vxsx-fae" 20 "p-3", CreateInsurancePolicy partial_payload);
             (sample_host "2vxsx-fae" 30 "p-4", DeleteInsurancePolicy "p-1")] in
  (reachable never_identical 10 sample_store ∧ hosted 10 tr)
  ∧ ∃ s' : Storage,
      run never_identical tr sample_store = Some s'
      ∧ reachable never_identical 30 s'.
Proof.
  intros tr.
  assert (hosted 10 tr) as Hh.
  { simpl. split_and!; try done; try lia.
    apply (bool_decide_unpack _). vm_compute. exact I. }
  split; [split; [apply sample_store_reachable | exact Hh]|].
  exact (hosted_calls_never_fault never_identical 10 tr sample_store
           sample_store_reachable Hh).
Defined.

(** The [updatedAt] of a record, when there is one, is not before its
    [createdAt]. *)
Lemma invoke_stamps_ordered identical h c (s s' : Storage) r last :
  store_ok last s → typed_call c → last ≤ time (host_ic h) →
  (∀ k (p : obj) a t, s !! k = Some p → p !! "createdAt" = Some (VNat64 a) →
                      p !! "updatedAt" = Some (VOpt (Some t)) → a ≤ t) →
  invoke identical h c s = Some (r, s') →
  ∀ k (p : obj) a t, s' !! k = Some p → p !! "createdAt" = Some (VNat64 a) →
                     p !! "updatedAt" = Some (VOpt (Some t)) → a ≤ t.
Proof.
  intros Hok Hty Hle Hs H k p a t Hp Ha Ht.
  destruct c as [payload|j| |j payload|j|j]; simpl in H.
  - destruct (createInsurancePolicy _ _ payload s) as [[r0 s0]|] eqn:Hcall;
      simpl in H; [|discriminate]. injection H as <- <-.
    apply createInsurancePolicy_cases in Hcall
      as [(f & _ & _ & ->)|(i & policy & _ & Hpol & Hid & _ & ->)]; [eauto|].
    apply lookup_insert_Some in Hp as [[_ <-]|[_ Hp]]; [|eauto].
    rewrite Hpol, spread_lookup_old in Ht; [discriminate|].
    apply payload_typed_lookup; [done | apply updatedAt_not_required].
  - injection H as <- <-. eauto.
  - injection H as <- <-. eauto.
  - destruct (updateInsurancePolicy _ j payload s) as [[r0 s0]|] eqn:Hcall;
      simpl in H; [|discriminate]. injection H as <- <-.
    apply updateInsurancePolicy_cases in Hcall
      as [(msg & _ & -> & _)
         |(i & old & new & _ & _ & Hold & Hnew & Hid & _ & ->)]; [eauto|].
    apply lookup_insert_Some in Hp as [[_ <-]|[_ Hp]]; [|eauto].
    destruct (Hok _ _ Hold) as (_ & _ & (a' & Ha' & Hle') & _).
    rewrite Hnew, lookup_insert_eq in Ht. injection Ht as <-.
    rewrite Hnew, lookup_insert_ne in Ha by done.
    rewrite spread_lookup_old in Ha
      by (apply payload_typed_lookup; [done | apply createdAt_not_required]).
    assert (a = a') by congruence. lia.
  - destruct (deleteInsurancePolicy j s) as [[r0 s0]|] eqn:Hcall;
      simpl in H; [|discriminate]. injection H as <- <-.
    apply deleteInsurancePolicy_cases in Hcall
      as [(msg & _ & -> & _)|(old & _ & _ & _ & ->)]; [eauto|].
    apply lookup_delete_Some in Hp as [_ Hp]. eauto.
  - destruct (fileClaim _ j s) as [[r0 s0]|] eqn:Hcall;
      simpl in H; [|discriminate]. injection H as <- <-.
    apply fileClaim_cases in Hcall
      as [(msg & _ & -> & _)
         |(i & old & new & _ & Hold & _ & Hnew & Hid & _ & ->)]; [eauto|].
    apply lookup_insert_Some in Hp as [[_ <-]|[_ Hp]]; [|eauto].
    destruct (Hok _ _ Hold) as (_ & _ & (a' & Ha' & Hle') & _).
    rewrite Hnew, lookup_insert_eq in Ht. injection Ht as <-.
    rewrite Hnew, !lookup_insert_ne in Ha by done.
    assert (a = a') by congruence. lia.
Qed.

Lemma run_stamps_ordered identical tr : ∀ (s s' : Storage) last,
  store_ok last s → hosted last tr →
  (∀ k (p : obj) a t, s !! k = Some p → p !! "createdAt" = Some (VNat64 a) →
                      p !! "updatedAt" = Some (VOpt (Some t)) → a ≤ t) →
  run identical tr s = Some s' →
  ∀ k (p : obj) a t, s' !! k = Some p → p !! "createdAt" = Some (VNat64 a) →
                     p !! "updatedAt" = Some (VOpt (Some t)) → a ≤ t.
Proof.
  induction tr as [|[h c] rest IH]; intros s s' last Hok Hh Hs H; simpl in *.
  - by injection H as <-.
  - destruct Hh as (Hty & Hu & Hle & Hrest).
    destruct (invoke identical h c s) as [[r s1]|] eqn:Hi;
      simpl in H; [|discriminate].
    eapply (IH s1 s' (time (host_ic h))); [|done| |done].
    + eapply invoke_store_ok; eauto.
    + eapply invoke_stamps_ordered; eauto.
Qed.

(** X9: in every store the registry gets to, a policy has a [createdAt]
    that is a time not after the last reading of the clock, and an
    [updatedAt] that is either [Opt.None] or a time not before that
    [createdAt] and not after the last reading of the clock. *)
Theorem stamps_in_order identical last (s : Storage) k (policy : obj) :
  reachable identical last s → s !! k = Some policy →
  ∃ a u,
    policy !! "createdAt" = Some (VNat64 a)
    ∧ policy !! "updatedAt" = Some (VOpt u)
    ∧ a ≤ last
    ∧ ∀ t, u = Some t → a ≤ t ≤ last.
Proof.
  intros Hreach Hk.
  destruct (reachable_store_ok _ _ _ Hreach _ _ Hk)
    as (_ & _ & (a & Ha & Hal) & (u & Hu & Hul)).
  exists a, u. split_and!; try done.
  intros t ->. split; [|by apply Hul].
  destruct Hreach as (tr & Hh & Hrun & <-).
  eapply (run_stamps_ordered identical tr ∅ s 0); eauto using store_ok_empty.
  intros k' p' a' t' H. by rewrite lookup_empty in H.
Qed.

Lemma stamps_in_order_witness :
  let policy := created 10 "p-1" sample_payload in
  (reachable never_identical 10 sample_store
   ∧ sample_store !! "p-1" = Some policy)
  ∧ ∃ a u,
      policy !! "createdAt" = Some (VNat64 a)
      ∧ policy !! "updatedAt" = Some (VOpt u)
      ∧ a ≤ 10
      ∧ ∀ t, u = Some t → a ≤ t ≤ 10.
Proof.
  intros policy.
  assert (sample_store !! "p-1" = Some policy) as Hs by reflexivity.
  split; [split; [apply sample_store_reachable | exact Hs]|].
  exact (stamps_in_order never_identical 10 sample_store "p-1" policy
           sample_store_reachable Hs).
Defined.

(** X10: on a store the registry gets to, [getInsurancePolicy] succeeds on
    exactly the ids the store holds and returns the stored record, whose
    [id] field is the id asked for; on any other id it fails and the
    message is "Invalid ID format." for the empty id and the not-found
    text with that id otherwise. *)
Theorem getInsurancePolicy_is_lookup identical last id (s : Storage) :
  reachable identical last s →
  (∀ policy : obj,
     getInsurancePolicy id s = Ok policy ↔ s !! id = Some policy)
  ∧ (∀ policy : obj,
       getInsurancePolicy id s = Ok policy →
       policy !! "id" = Some (VString id))
  ∧ (s !! id = None →
       getInsurancePolicy id s
       = Err (if decide (id = "") then invalid_id_msg else not_found_msg id)).
Proof.
  intros Hreach. pose proof (reachable_store_ok _ _ _ Hreach) as Hok.
  assert (∀ policy : obj,
            getInsurancePolicy id s = Ok policy ↔ s !! id = Some policy) as Hiff.
  { intros policy. unfold getInsurancePolicy. split.
    - destruct (invalid_id id); [discriminate|].
      destruct (s !! id); [by intros [= ->] | discriminate].
    - intros Hs. destruct (Hok _ _ Hs) as (Hne & _).
      by rewrite invalid_id_nonempty, Hs. }
  split_and!; [done| |].
  - intros policy H. apply Hiff in H. by destruct (Hok _ _ H) as (_ & ? & _).
  - intros Hs. unfold getInsurancePolicy. case_decide as Hid.
    + by rewrite Hid.
    + by rewrite invalid_id_nonempty, Hs.
Qed.

Lemma getInsurancePolicy_is_lookup_witness :
  let policy := created 10 "p-1" sample_payload in
  reachable never_identical 10 sample_store
  ∧ getInsurancePolicy "p-1" sample_store = Ok policy
  ∧ policy !! "id" = Some (VString "p-1").
Proof.
  intros policy.
  split; [apply sample_store_reachable|].
  destruct (getInsurancePolicy_is_lookup never_identical 10 "p-1" sample_store
              sample_store_reachable) as (H1 & H2 & _).
  assert (getInsurancePolicy "p-1" sample_store = Ok policy) as Hget
    by (apply H1; reflexivity).
  split; [exact Hget | exact (H2 policy Hget)].
Defined.

(** ** The copy without guards *)

(** X11: what the guards add.  On every input, each method of
    [src/index.ts] either does exactly what the method of the copy without
    guards does, or gives a validation failure and leaves the store as it
    is. *)
Theorem guards_only_reject ic u id (payload : obj) (s : Storage) :
  let refused (guarded unguarded : option (Result LifeInsurancePolicy * Storage)) :=
    guarded = unguarded
    ∨ ∃ msg, guarded = Some (Err msg, s) ∧ failure_of id Validation msg in
  refused (createInsurancePolicy ic u payload s)
          (Unguarded.createInsurancePolicy ic u payload s)
  ∧ refused (updateInsurancePolicy ic id payload s)
            (Unguarded.updateInsurancePolicy ic id payload s)
  ∧ refused (deleteInsurancePolicy id s) (Unguarded.deleteInsurancePolicy id s)
  ∧ refused (fileClaim ic id s) (Unguarded.fileClaim ic id s)
  ∧ (getInsurancePolicy id s = Unguarded.getInsurancePolicy id s
     ∨ getInsurancePolicy id s = Err invalid_id_msg).
Proof.
  intros refused. unfold refused.
  assert (∀ f, failure_of id Validation (missing_field_msg f)) as Hmissing.
  { intros f. do 4 right. by exists f. }
  assert (failure_of id Validation invalid_id_msg) as Hinvalid by by left.
  unfold createInsurancePolicy, updateInsurancePolicy, deleteInsurancePolicy,
    fileClaim, getInsurancePolicy.
  rewrite invalid_payload_false.
  destruct (missing_field requiredFields payload) as [f|] eqn:Hm;
    destruct (invalid_id id) eqn:Hid; split_and!; eauto.
  all: left; unfold Unguarded.fileClaim;
    destruct (s !! id) as [policy|]; [|done];
    by destruct (truthy (field policy "isClaimed")).
Qed.

(** X12: in the copy without guards, an id that the store does not hold,
    the empty one too, gets the not-found failure from
    [getInsurancePolicy], [updateInsurancePolicy] (whatever the payload),
    [deleteInsurancePolicy] and [fileClaim], and the store stays as it
    is. *)
Theorem unguarded_absent_id_not_found ic id (payload : obj) (s : Storage) :
  s !! id = None →
  Unguarded.getInsurancePolicy id s = Err (not_found_msg id)
  ∧ Unguarded.updateInsurancePolicy ic id payload s
    = Some (Err (not_found_msg id), s)
  ∧ Unguarded.deleteInsurancePolicy id s = Some (Err (not_found_msg id), s)
  ∧ Unguarded.fileClaim ic id s = Some (Err (not_found_msg id), s).
Proof.
  intros Hs.
  unfold Unguarded.getInsurancePolicy, Unguarded.updateInsurancePolicy,
    Unguarded.deleteInsurancePolicy, Unguarded.fileClaim.
  by rewrite Hs.
Qed.

Lemma unguarded_absent_id_not_found_witness :
  sample_store !! "" = None
  ∧ Unguarded.getInsurancePolicy "" sample_store = Err (not_found_msg "")
  ∧ Unguarded.updateInsurancePolicy (mkIC "2vxsx-fae" 20) "" partial_payload
      sample_store = Some (Err (not_found_msg ""), sample_store).
Proof.
  assert (sample_store !! "" = None) as Hs by reflexivity.
  split; [exact Hs|].
  destruct (unguarded_absent_id_not_found (mkIC "2vxsx-fae" 20) ""
              partial_payload sample_store Hs) as (H1 & H2 & _).
  split; [exact H1 | exact H2].
Defined.



(** X14: in the copy without guards, [getAllInsurancePolicies] always
    succeeds.  What it lists are stored records, no more of them than the
    store holds, each with a [policyHolder] that is an object, and that
    object the very one that is the caller: a record whose [policyHolder]
    is missing or is a text is never listed, and where no stored
    principal is the same object as the caller's the list is empty. *)
Theorem unguarded_listing identical ic (s : Storage) :
  ∃ found,
    Unguarded.getAllInsurancePolicies identical ic s = Ok found
    ∧ (length found ≤ size s)%nat
    ∧ (∀ policy : obj,
         policy ∈ found →
         (∃ k, s !! k = Some policy)
         ∧ is_object (field policy "policyHolder") = true
         ∧ identical (field policy "policyHolder") (VPrincipal (caller ic)) = true)
    ∧ ((∀ v, identical v (VPrincipal (caller ic)) = false) → found = []).
Proof.
  eexists. split; [reflexivity|].
  assert (∀ v, strict_eq identical v (VPrincipal (caller ic)) = true →
               is_object v = true
               ∧ identical v (VPrincipal (caller ic)) = true) as Hstrict.
  { intros v. destruct v; simpl; try discriminate; by intros ->. }
  split_and!.
  - etrans; [apply length_filter|].
    unfold storage_values. by rewrite length_fmap, length_map_to_list.
  - intros policy Hin. apply list_elem_of_filter in Hin as [Heq Hin].
    apply storage_values_spec in Hin. apply Hstrict in Heq. tauto.
  - intros Hnever.
    match goal with |- ?l = [] => destruct l as [|policy rest] eqn:Hl end;
      [done | exfalso].
    assert (policy ∈ policy :: rest) as Hin by by left.
    rewrite <- Hl in Hin. apply list_elem_of_filter in Hin as [Heq _].
    apply Hstrict in Heq as [_ Heq]. by rewrite Hnever in Heq.
Qed.

(** ** Telling failures apart *)

(** X15: the message of a failure tells its kind, and for a not-found or
    an already-filed failure it tells the id too: no text is the message
    of failures of two kinds, and the not-found (or already-filed) texts of
    two ids are the same only when the ids are. *)
Theorem failure_kind_unique id id' k k' msg :
  failure_of id k msg → failure_of id' k' msg →
  k = k' ∧ (k ≠ Validation → id = id').
Proof.
  intros H H'.
  destruct k, k'; simpl in H, H'.
  - split; [done | congruence].
  - exfalso. subst msg.
    destruct H as [H|[H|[H|[H|[f H]]]]]; discriminate.
  - exfalso. subst msg.
    destruct H as [H|[H|[H|[H|[f H]]]]]; discriminate.
  - exfalso. subst msg.
    destruct H' as [H|[H|[H|[H|[f H]]]]]; discriminate.
  - split; [done|]. intros _. subst msg. by apply not_found_msg_inj.
  - exfalso. subst msg. discriminate.
  - exfalso. subst msg.
    destruct H' as [H|[H|[H|[H|[f H]]]]]; discriminate.
  - exfalso. subst msg. discriminate.
  - split; [done|]. intros _. subst msg. by apply already_filed_msg_inj.
Qed.

Lemma failure_kind_unique_witness :
  (failure_of "p-9" NotFound (not_found_msg "p-9")
   ∧ failure_of "p-9" NotFound "Insurance Policy with ID=p-9 not found.")
  ∧ NotFound = NotFound ∧ (NotFound ≠ Validation → "p-9" = "p-9").
Proof.
  assert (failure_of "p-9" NotFound (not_found_msg "p-9")) as H by reflexivity.
  split; [split; exact H|].
  exact (failure_kind_unique "p-9" "p-9" NotFound NotFound _ H H).
Defined.

(** ** The random source *)

Lemma fill_random_spec draw todo : ∀ i (array : list Z),
  (i + todo ≤ length array)%nat →
  length (fill_random draw i todo array) = length array
  ∧ ∀ j, fill_random draw i todo array !! j
         = if decide (i ≤ j < i + todo)%nat
           then Some (to_uint8 (draw j)) else array !! j.
Proof.
  induction todo as [|todo IH]; intros i array Hlen; simpl.
  - split; [done|]. intros j. case_decide; [lia | done].
  - destruct (IH (S i) (<[i := to_uint8 (draw i)]> array)) as [Hl Hj].
    { rewrite length_insert. lia. }
    rewrite length_insert in Hl. split; [done|].
    intros j. rewrite Hj.
    destruct (decide (j = i)) as [->|Hne].
    + rewrite decide_False by lia. rewrite decide_True by lia.
      apply list_lookup_insert_eq. lia.
    + rewrite list_lookup_insert_ne by done.
      repeat case_decide; try done; lia.
Qed.

(** X16: [getRandomValues] gives back an array of 32 elements, each of
    them a byte: element [i] is what the [i]-th
    [Math.floor(Math.random() * 256)] gave, kept modulo 256, and is that
    very number when it is between 0 and 255. *)
Theorem getRandomValues_bytes draw :
  length (getRandomValues draw) = 32%nat
  ∧ (∀ i, (i < 32)%nat →
          getRandomValues draw !! i = Some (draw i `mod` 256))
  ∧ Forall (λ b, 0 ≤ b < 256) (getRandomValues draw)
  ∧ ((∀ i, 0 ≤ draw i < 256) → getRandomValues draw = draw <$> seq 0 32).
Proof.
  unfold getRandomValues.
  destruct (fill_random_spec draw (length (replicate 32 0)) 0%nat
              (replicate 32 0)) as [Hl Hj]; [simpl; lia|].
  set (result := fill_random draw 0 (length (replicate 32 0)) (replicate 32 0))
    in *.
  assert (∀ i, (i < 32)%nat → result !! i = Some (draw i `mod` 256)) as Hi.
  { intros i Hlt. rewrite Hj. rewrite decide_True; [done|].
    rewrite length_replicate. lia. }
  rewrite length_replicate in Hl.
  split_and!; [done | done | |].
  - apply Forall_lookup. intros i b Hb.
    assert (i < 32)%nat as Hlt by (apply lookup_lt_Some in Hb; lia).
    rewrite (Hi i Hlt) in Hb. injection Hb as <-.
    apply Z.mod_pos_bound. lia.
  - intros Hdraw. apply list_eq. intros i.
    rewrite list_lookup_fmap.
    destruct (decide (i < 32)%nat) as [Hlt|Hge].
    + rewrite (Hi i Hlt), lookup_seq_lt by done. simpl.
      by rewrite Z.mod_small.
    + rewrite (lookup_ge_None_2 result) by lia.
      by rewrite (lookup_ge_None_2 (seq 0 32)) by (rewrite length_seq; lia).
Qed.
